(** * Sharable resources of Galaxy: access, publishing and slugs

    A shallow embedding of [lib/galaxy/managers/sharable.py]
    ([SharableModelManager]) and the properties its specification states
    about it.

    Python values are modelled as follows.
    - A byte string ([str] of Python 2, the language of the module) is a
      [string] of Rocq, a sequence of 8-bit characters.
    - A user is [option nat]: [None] is Python's [None], the value the
      request layer passes for a visitor who is not logged in.
    - An item (history, page, stored workflow, visualization) is a mutable
      object.  Objects live in the session's identity map, a list indexed by
      the object's reference; the database table of the model class is a
      second list, the rows as they were at the last flush.  An association
      passed to [session.delete] stays in the table and in the collection
      Python reads ([collection]) until the next flush; the session keeps
      apart what that flush will write.
    - A call either returns, raises, or does not produce a Python
      behaviour at all (a reference outside the identity map, a loop that
      used up its fuel): the type [outcome]. *)

From Stdlib Require Import String Ascii Arith Lia Bool List.
From Stdlib Require Import DecimalString DecimalNat.
From stdpp Require Import base decidable option list strings.

Local Open Scope string_scope.
Local Open Scope nat_scope.

(** ** Characters, regular expressions of the module, string formatting *)

Module PyStr.

(** [c] lies between [lo] and [hi], as in a character range [lo-hi]. *)
Definition in_range (lo hi : ascii) (c : ascii) : bool :=
  (nat_of_ascii lo <=? nat_of_ascii c) && (nat_of_ascii c <=? nat_of_ascii hi).

Definition is_lower (c : ascii) : bool := in_range "a" "z" c.
Definition is_upper (c : ascii) : bool := in_range "A" "Z" c.
Definition is_digit (c : ascii) : bool := in_range "0" "9" c.
Definition is_hyphen (c : ascii) : bool := Ascii.eqb c "-".

(** The newline character, [\n]. *)
Definition LF : ascii := ascii_of_nat 10.

(** [\s] of the [re] module on a byte string: space, [\t], [\n], [\v],
    [\f], [\r]. *)
Definition is_space (c : ascii) : bool :=
  Ascii.eqb c " " || in_range (ascii_of_nat 9) (ascii_of_nat 13) c.

(** The class [[a-z0-9\-]]. *)
Definition slug_char (c : ascii) : bool :=
  is_lower c || is_digit c || is_hyphen c.

(** The class [[a-zA-Z0-9\-]], whose complement [_slugify] deletes. *)
Definition keep_char (c : ascii) : bool :=
  is_lower c || is_upper c || is_digit c || is_hyphen c.

(** [str.lower] on one byte. *)
Definition lower_char (c : ascii) : ascii :=
  if is_upper c then ascii_of_nat (nat_of_ascii c + 32) else c.

(** [s.lower()] *)
Fixpoint lower (s : string) : string :=
  match s with
  | EmptyString => EmptyString
  | String c r => String (lower_char c) (lower r)
  end.

(** Every character of [s] satisfies [p]. *)
Fixpoint all_chars (p : ascii -> bool) (s : string) : bool :=
  match s with
  | EmptyString => true
  | String c r => p c && all_chars p r
  end.

(** The greedy run of a one-character class: [span p s] is the longest
    prefix of [s] in the class, and the rest. *)
Fixpoint span (p : ascii -> bool) (s : string) : string * string :=
  match s with
  | EmptyString => (EmptyString, EmptyString)
  | String c r =>
      if p c then let '(run, rest) := span p r in (String c run, rest)
      else (EmptyString, s)
  end.

(** [$] without [re.MULTILINE], tried where [rest] is what remains of the
    subject: it matches at the very end, and also just before a newline
    that is the last character. *)
Definition at_dollar (rest : string) : bool :=
  match rest with
  | EmptyString => true
  | String c EmptyString => Ascii.eqb c LF
  | _ => false
  end.

(** [re.sub("\s+", "-", s)]: every maximal run of white space becomes one
    hyphen.  [in_run] tells that the previous character was white space. *)
Fixpoint sub_spaces (in_run : bool) (s : string) : string :=
  match s with
  | EmptyString => EmptyString
  | String c r =>
      if is_space c
      then (if in_run then sub_spaces true r else String "-" (sub_spaces true r))
      else String c (sub_spaces false r)
  end.

(** [re.sub("[^a-zA-Z0-9\-]", empty, s)]: the characters outside the
    class are deleted. *)
Fixpoint delete_others (s : string) : string :=
  match s with
  | EmptyString => EmptyString
  | String c r =>
      if keep_char c then String c (delete_others r) else delete_others r
  end.

(** [s.endswith('-')] *)
Fixpoint endswith_hyphen (s : string) : bool :=
  match s with
  | EmptyString => false
  | String c EmptyString => is_hyphen c
  | String _ r => endswith_hyphen r
  end.

(** [s[:-1]] *)
Fixpoint drop_last (s : string) : string :=
  match s with
  | EmptyString => EmptyString
  | String _ EmptyString => EmptyString
  | String c r => String c (drop_last r)
  end.

(** ['%i' % n] for a natural number. *)
Definition format_int (n : nat) : string :=
  NilEmpty.string_of_uint (Nat.to_uint n).

(** ['%s-%i' % (base, n)] *)
Definition format_slug (base : string) (n : nat) : string :=
  base ++ "-" ++ format_int n.

End PyStr.

(** ** Slug validation and normalisation *)

(** [is_valid_slug]: [re.compile("^[a-z0-9\-]+$").match(slug)], read as a
    truth value ([None] when there is no match).  The class is matched
    greedily; giving characters back never helps, because [$] then stands
    before a character of the class. *)
Definition is_valid_slug (slug : string) : bool :=
  let '(run, rest) := PyStr.span PyStr.slug_char slug in
  negb (String.eqb run EmptyString) && PyStr.at_dollar rest.

(** [_slugify] *)
Definition _slugify (start_with : string) : string :=
  let slug_base := PyStr.sub_spaces false start_with in
  let slug_base := PyStr.delete_others slug_base in
  if PyStr.endswith_hyphen slug_base then PyStr.drop_last slug_base
  else slug_base.

(** ** Data model *)

(** A user as the request layer hands it over: [Some n] is the account with
    primary key [n], [None] is Python's [None]. *)
Definition User : Type := option nat.

(** A row of the model's [UserShareAssociation] table, seen from the item
    it belongs to. *)
Record ShareAssoc : Type := mkShareAssoc {
  assoc_id : nat;
  assoc_user : User;
}.

(** The attributes of a sharable item the manager reads and writes.
    [title = None] stands for a model class without a [title] attribute
    (histories and workflows have a [name], pages and visualizations a
    [title]). *)
Record Item : Type := mkItem {
  user : User;
  slug : option string;
  importable : bool;
  published : bool;
  title : option string;
  name : string;
  users_shared_with : list ShareAssoc;
}.

#[global] Instance ShareAssoc_eq_dec : EqDecision ShareAssoc.
Proof. solve_decision. Defined.

#[global] Instance Item_eq_dec : EqDecision Item.
Proof. solve_decision. Defined.

(** [item.users_shared_with_dot_users] *)
Definition users_shared_with_dot_users (item : Item) : list User :=
  map assoc_user (users_shared_with item).

(** The two boolean columns [setattr] is used on. *)
Inductive flag : Type := Importable | Published.

Definition setattr (attr : flag) (val : bool) (item : Item) : Item :=
  match attr with
  | Importable =>
      mkItem (user item) (slug item) val (published item)
             (title item) (name item) (users_shared_with item)
  | Published =>
      mkItem (user item) (slug item) (importable item) val
             (title item) (name item) (users_shared_with item)
  end.

(** [item.slug = val] *)
Definition set_slug_attr (val : option string) (item : Item) : Item :=
  mkItem (user item) val (importable item) (published item)
         (title item) (name item) (users_shared_with item).

(** Assignment to the relationship collection of the item. *)
Definition set_shares (val : list ShareAssoc) (item : Item) : Item :=
  mkItem (user item) (slug item) (importable item) (published item)
         (title item) (name item) val.

(** Modelled from the spec: the persistence layer (the SQLAlchemy session
    behind [self.session()], section 6) is not part of the source file.
    [objs] is the identity map: the live objects with the attribute values
    Python sees, indexed by reference.  Of the share associations of an item
    an object holds those that are not marked for deletion, which are the
    ones the next flush writes; [item.users_shared_with] as Python reads it
    is [collection], which has the marked ones too until the flush.  [rows] is
    the table of the model class as of the last flush, which is what a query
    filters and counts (the session does not flush before a query).  Every
    object of [objs] is attached to the session.  [next_assoc] is the key
    the next share association gets. *)
Record Session : Type := mkSession {
  objs : list Item;
  rows : list Item;
  next_assoc : nat;
}.

(** The exceptions the manager raises: two classes of [galaxy.exceptions],
    with the slug they report, and the [IndexError] of indexing an empty
    list. *)
Inductive exn : Type :=
| RequestParameterInvalidException (slug : string)
| Conflict (slug : string)
| IndexError.

(** The error classes of the specification (section 7).
    [RequestParameterInvalidException] is the invalid-input error,
    [IndexError] is the lookup error of Python ([LookupError]). *)
Inductive error_class : Type := InvalidInput | ConflictClass | NotFound.

Definition class_of (e : exn) : error_class :=
  match e with
  | RequestParameterInvalidException _ => InvalidInput
  | Conflict _ => ConflictClass
  | IndexError => NotFound
  end.

(** What a call does: it returns [a] in session [s], raises [e] in session
    [s], is applied to a reference that is outside the identity map (no
    Python program does that), or exhausts the fuel of a loop. *)
Inductive outcome (A : Type) : Type :=
| Done (a : A) (s : Session)
| Raise (e : exn) (s : Session)
| Dangling
| Diverge.

Arguments Done {A} a s.
Arguments Raise {A} e s.
Arguments Dangling {A}.
Arguments Diverge {A}.

(** Computations of the manager: state passing with exceptions. *)
Definition M (A : Type) : Type := Session -> outcome A.

#[global] Instance M_ret : MRet M := fun A a s => Done a s.

#[global] Instance M_bind : MBind M := fun A B f m s =>
  match m s with
  | Done a s' => f a s'
  | Raise e s' => Raise e s'
  | Dangling => Dangling
  | Diverge => Diverge
  end.

Definition raise {A : Type} (e : exn) : M A := fun s => Raise e s.

(** Reading the attributes of the object behind reference [i]. *)
Definition get_item (i : nat) : M Item := fun s =>
  match objs s !! i with
  | Some item => Done item s
  | None => Dangling
  end.

(** Session [s] after the object behind reference [i] became [item]. *)
Definition set_obj (i : nat) (item : Item) (s : Session) : Session :=
  mkSession (<[i := item]> (objs s)) (rows s) (next_assoc s).

(** Mutating the object behind reference [i] in place. *)
Definition modify_item (i : nat) (f : Item -> Item) : M unit := fun s =>
  match objs s !! i with
  | Some item => Done tt (set_obj i (f item) s)
  | None => Dangling
  end.

(** [self.session().add(item)]: the object is attached already. *)
Definition session_add (i : nat) : M unit := mret tt.

(** Session [s] after a flush: the pending state of every attached object
    is written to the table. *)
Definition flushed (s : Session) : Session :=
  mkSession (objs s) (objs s) (next_assoc s).

(** [self.session().flush()] *)
Definition session_flush : M unit := fun s => Done tt (flushed s).

Definition when (b : bool) (m : M unit) : M unit :=
  if b then m else mret tt.

(** Modelled from the spec: [_session_setattr] of [managers/base.py], which
    is not part of the source file: set the attribute, add the item to the
    session, flush unless the caller defers it (section 4.1, deferred
    persistence), return the item. *)
Definition _session_setattr (i : nat) (attr : flag) (val : bool) (flush : bool) : M nat :=
  modify_item i (setattr attr val);;
  session_add i;;
  when flush session_flush;;
  mret i.

(** ** The manager *)

(** The interface of [users.UserManager] the manager consults; its code is
    outside the source file. *)
Class UserManager : Type := {
  is_admin : User -> bool;
  is_anonymous : User -> bool;
}.

Section Access.

Context `{user_manager : UserManager}.

(** [is_owner] *)
Definition is_owner (item : Item) (u : User) : bool :=
  if is_admin u then true
  else bool_decide (user item = u).

(** [is_accessible] *)
Definition is_accessible (item : Item) (u : User) : bool :=
  if importable item then true
  else if is_owner item u then true
  else if is_anonymous u then false
  else if bool_decide (u ∈ users_shared_with_dot_users item) then true
  else false.

End Access.

(** The rows a query with [filter_by(user=u, slug=new_slug, importable=True)]
    selects. *)
Definition importable_with_slug (u : User) (new_slug : string) (s : Session) : list Item :=
  filter (λ r, user r = u ∧ slug r = Some new_slug ∧ importable r = true) (rows s).

(** The rows a query with [filter_by(user=u, slug=new_slug)] selects. *)
Definition rows_with_slug (u : User) (new_slug : string) (s : Session) : list Item :=
  filter (λ r, user r = u ∧ slug r = Some new_slug) (rows s).

(** [_slug_exists] *)
Definition _slug_exists (u : User) (new_slug : string) : M bool := fun s =>
  Done (negb (length (rows_with_slug u new_slug s) =? 0)) s.

(** [_default_slug_base] *)
Definition _default_slug_base (item : Item) : string :=
  match title item with
  | Some t => PyStr.lower t
  | None => PyStr.lower (name item)
  end.

(** The first part of [get_unique_slug]: the base of the candidates. *)
Definition slug_base_of (item : Item) : string :=
  match slug item with
  | None | Some EmptyString => _slugify (_default_slug_base item)
  | Some cur_slug => cur_slug
  end.

(** The [while] loop of [get_unique_slug], with [taken new_slug] for the
    test [query.count() != 0].  One unit of [fuel] is one evaluation of the
    test; [None] when the fuel ends before the loop does. *)
Fixpoint probe (fuel : nat) (taken : string -> bool)
    (slug_base new_slug : string) (count : nat) : option string :=
  match fuel with
  | 0 => None
  | S fuel' =>
      if taken new_slug
      then probe fuel' taken slug_base (PyStr.format_slug slug_base count) (S count)
      else Some new_slug
  end.

(** The loop test of [get_unique_slug] in session [s] for owner [u]. *)
Definition slug_taken (s : Session) (u : User) (new_slug : string) : bool :=
  negb (length (importable_with_slug u new_slug s) =? 0).

(** The loop of [get_unique_slug] run in the session: it gets one test
    more than the table has rows, which is enough (see
    [probe_enough_fuel]). *)
Definition first_free_slug (u : User) (slug_base : string) : M string := fun s =>
  match probe (S (length (rows s))) (slug_taken s u) slug_base slug_base 1 with
  | Some new_slug => Done new_slug s
  | None => Diverge
  end.

(** [get_unique_slug] *)
Definition get_unique_slug (i : nat) : M string :=
  item ← get_item i;
  first_free_slug (user item) (slug_base_of item).

(** [create_unique_slug] *)
Definition create_unique_slug (i : nat) (flush : bool) : M nat :=
  new_slug ← get_unique_slug i;
  modify_item i (set_slug_attr (Some new_slug));;
  session_add i;;
  when flush session_flush;;
  mret i.

(** [unpublish] *)
Definition unpublish (i : nat) (flush : bool) : M nat :=
  _session_setattr i Published false flush.

(** [make_importable] *)
Definition make_importable (i : nat) (flush : bool) : M nat :=
  create_unique_slug i false;;
  _session_setattr i Importable true flush.

(** [make_non_importable] *)
Definition make_non_importable (i : nat) (flush : bool) : M nat :=
  item ← get_item i;
  (if published item then unpublish i false else mret i);;
  _session_setattr i Importable false flush.

(** [publish] *)
Definition publish (i : nat) (flush : bool) : M nat :=
  item ← get_item i;
  (if negb (importable item) then make_importable i false else mret i);;
  _session_setattr i Published true flush.

(** [get_share_assocs]: the stored associations of the item, those of
    [u] only when [u] is not [None]. *)
Definition get_share_assocs (i : nat) (u : User) : M (list ShareAssoc) := fun s =>
  let query := from_option users_shared_with [] (rows s !! i) in
  let query :=
    match u with
    | Some _ => filter (λ a, assoc_user a = u) query
    | None => query
    end in
  Done query s.

(** [_create_user_share_assoc] *)
Definition _create_user_share_assoc (i : nat) (u : User) (flush : bool) : M ShareAssoc :=
  fun s =>
    let user_share_assoc := mkShareAssoc (next_assoc s) u in
    (modify_item i (λ item, set_shares (users_shared_with item ++ [user_share_assoc]) item);;
     item ← get_item i;
     (if bool_decide (slug item = None ∨ slug item = Some EmptyString)
      then create_unique_slug i true else mret i);;
     when flush session_flush;;
     mret user_share_assoc)
      (mkSession (objs s) (rows s) (S (next_assoc s))).

(** [share_with] for one user. *)
Definition share_with (i : nat) (u : User) (flush : bool) : M ShareAssoc :=
  existing ← get_share_assocs i u;
  match existing with
  | first :: _ => mret first
  | [] => _create_user_share_assoc i u flush
  end.

(** The item as the next flush will write it once association [a] is
    marked for deletion. *)
Definition without_share (a : ShareAssoc) (item : Item) : Item :=
  set_shares (filter (λ b, assoc_id b ≠ assoc_id a) (users_shared_with item)) item.

(** [self.session().delete(assoc)] for an association of the item behind
    [i]: the association is marked for deletion, which the session records
    by taking it out of what the next flush writes for the item.  Until that
    flush the row is still in the table, a query still finds it, and Python
    still reads the association in [item.users_shared_with] (see
    [marked_deleted] and [collection]). *)
Definition session_delete (i : nat) (a : ShareAssoc) : M unit :=
  modify_item i (without_share a).

(** [unshare_with] for one user. *)
Definition unshare_with (i : nat) (u : User) (flush : bool) : M ShareAssoc :=
  found ← get_share_assocs i u;
  match found with
  | [] => raise IndexError
  | user_share_assoc :: _ =>
      session_delete i user_share_assoc;;
      when flush session_flush;;
      mret user_share_assoc
  end.

(** [map] of a call over a list of users (Python 2: evaluated at once). *)
Fixpoint map_users {A : Type} (f : User -> M A) (us : list User) : M (list A) :=
  match us with
  | [] => mret []
  | u :: us' => a ← f u; r ← map_users f us'; mret (a :: r)
  end.

(** [share_with] and [unshare_with] for a list of users. *)
Definition share_with_list (i : nat) (us : list User) : M (list ShareAssoc) :=
  map_users (λ u, share_with i u false) us.

Definition unshare_with_list (i : nat) (us : list User) : M (list ShareAssoc) :=
  map_users (λ u, unshare_with i u false) us.

(** [set_slug] *)
Definition set_slug (i : nat) (new_slug : string) (u : User) (flush : bool) : M nat :=
  if negb (is_valid_slug new_slug)
  then raise (RequestParameterInvalidException new_slug)
  else
    taken ← _slug_exists u new_slug;
    if (taken : bool) then raise (Conflict new_slug)
    else
      modify_item i (set_slug_attr (Some new_slug));;
      when flush session_flush;;
      mret i.

(** ** Notions of the statements, and example sessions *)

(** The [k]-th slug the loop of [get_unique_slug] tests: the base itself,
    then the base with the suffixes [-1], [-2], ... *)
Definition candidate (slug_base : string) (k : nat) : string :=
  match k with
  | 0 => slug_base
  | S _ => PyStr.format_slug slug_base k
  end.

(** The stored items of owner [u] that are importable. *)
Definition owner_importable (u : User) (s : Session) : list Item :=
  filter (λ r, user r = u ∧ importable r = true) (rows s).

(** Slug [c] is the slug of a stored importable item of owner [u]. *)
Definition used_by_importable (s : Session) (u : User) (c : string) : Prop :=
  exists r, r ∈ rows s /\ user r = u /\ importable r = true /\ slug r = Some c.

(** Session [s] after the trailing [if flush: session.flush()]. *)
Definition commit (flush : bool) (s : Session) : Session :=
  if flush then flushed s else s.

(** The item after [make_importable] gave it slug [new_slug]. *)
Definition made_importable (new_slug : string) (item : Item) : Item :=
  setattr Importable true (set_slug_attr (Some new_slug) item).

(** The item after [make_non_importable]. *)
Definition made_non_importable (item : Item) : Item :=
  setattr Importable false
    (if published item then setattr Published false item else item).

(** The item after [publish], when [make_importable] would give it
    [new_slug]. *)
Definition made_published (new_slug : string) (item : Item) : Item :=
  setattr Published true
    (if negb (importable item) then made_importable new_slug item else item).

(** A call of one of the four transitions, with its [flush] argument. *)
Inductive call : Type :=
| Publish (flush : bool)
| Unpublish (flush : bool)
| MakeImportable (flush : bool)
| MakeNonImportable (flush : bool).

Definition run_call (i : nat) (c : call) : M nat :=
  match c with
  | Publish flush => publish i flush
  | Unpublish flush => unpublish i flush
  | MakeImportable flush => make_importable i flush
  | MakeNonImportable flush => make_non_importable i flush
  end.

(** The calls of [cs], one after the other, on the item behind [i]. *)
Fixpoint run_calls (i : nat) (cs : list call) : M unit :=
  match cs with
  | [] => mret tt
  | c :: cs' => run_call i c;; run_calls i cs'
  end.

(** [published ⇒ importable] *)
Definition published_importable (item : Item) : Prop :=
  published item = true -> importable item = true.

(** The invariant for what list [l] (the objects, or the rows) holds at
    index [i]. *)
Definition published_importable_at (l : list Item) (i : nat) : Prop :=
  forall item, l !! i = Some item -> published_importable item.

(** Three items of user 1: two importable ones with the slugs [report] and
    [report-1], and a new one named [Report] without a slug. *)
Definition report_0 : Item := mkItem (Some 1) (Some "report") true false None "Report" [].
Definition report_1 : Item := mkItem (Some 1) (Some "report-1") true false None "Report" [].
Definition report_new : Item := mkItem (Some 1) None false false None "Report" [].

Definition report_session : Session :=
  let items := [report_0; report_1; report_new] in mkSession items items 0.

(** A user manager for the examples: account 0 is the administrator, and
    the anonymous user is [None]. *)
Definition example_users : UserManager :=
  {| is_admin u := bool_decide (u = Some 0);
     is_anonymous u := bool_decide (u = None) |}.

(** A private item of user 1, shared with user 2. *)
Definition private_item : Item :=
  mkItem (Some 1) None false false None "Private" [mkShareAssoc 0 (Some 2)].

(** An item of user 1 without a slug, whose name has no letter or digit. *)
Definition punctuation_item : Item :=
  mkItem (Some 1) None false false None "!!!" [].

Definition punctuation_session : Session :=
  mkSession [punctuation_item] [punctuation_item] 0.

(** The slug of the object behind [i], when there is one. *)
Definition slug_of (s : Session) (i : nat) : option (option string) :=
  slug <$> objs s !! i.

(** Two items of user 1: the first has the slug [report], the second has
    none. *)
Definition titled_report : Item := mkItem (Some 1) (Some "report") false false None "Report" [].
Definition untitled : Item := mkItem (Some 1) None false false None "Draft" [].

Definition two_items_session : Session :=
  let items := [titled_report; untitled] in mkSession items items 0.

(** One item of user 1 with the slug [report]. *)
Definition one_item_session : Session :=
  mkSession [titled_report] [titled_report] 0.

(** The share associations of item [i] in the table. *)
Definition stored_shares (s : Session) (i : nat) : list ShareAssoc :=
  from_option users_shared_with [] (rows s !! i).

(** The associations of item [i] that are marked for deletion and not
    flushed yet: the stored ones whose key the object no longer holds. *)
Definition marked_deleted (s : Session) (i : nat) : list ShareAssoc :=
  match objs s !! i with
  | Some item =>
      filter (λ a, assoc_id a ∉ map assoc_id (users_shared_with item))
             (stored_shares s i)
  | None => []
  end.

(** [item.users_shared_with] as Python reads it for the object behind [i]:
    the associations the object holds, and the ones marked for deletion,
    which stay in the collection until the flush. *)
Definition collection (s : Session) (i : nat) : list ShareAssoc :=
  (from_option users_shared_with [] (objs s !! i) ++ marked_deleted s i)%list.

(** The object behind [i] as Python reads it, collection included: what a
    caller passes to [is_accessible]. *)
Definition live_item (s : Session) (i : nat) : option Item :=
  set_shares (collection s i) <$> objs s !! i.

(** The item after association [a] was created for it. *)
Definition with_share (a : ShareAssoc) (item : Item) : Item :=
  set_shares (users_shared_with item ++ [a]) item.

(** Session [s] after it handed out the key of a new association. *)
Definition next_key (s : Session) : Session :=
  mkSession (objs s) (rows s) (S (next_assoc s)).

(** A session whose only item is [private_item], stored. *)
Definition shared_session : Session :=
  mkSession [private_item] [private_item] 1.

(** Two items of user 1 with the slug [report]: the first is importable,
    the second is not. *)
Definition report_private : Item :=
  mkItem (Some 1) (Some "report") false false None "Report" [].

Definition clash_session : Session :=
  let items := [report_0; report_private] in mkSession items items 0.

(** ** The serializer and the deserializer *)

(** [sep.join(parts)] *)
Fixpoint join (sep : string) (parts : list string) : string :=
  match parts with
  | [] => EmptyString
  | [part] => part
  | part :: rest => part ++ sep ++ join sep rest
  end.

(** The truth value of a string attribute that may be [None]. *)
Definition truthy (o : option string) : bool :=
  match o with
  | Some (String _ _) => true
  | _ => false
  end.

Section Serializer.

(** [user.username] for the account with a given key. *)
Variable username : nat -> string.

(** The class attribute [SINGLE_CHAR_ABBR] of the serializer at hand. *)
Variable SINGLE_CHAR_ABBR : option string.

(** [serialize_username_and_slug]; [None] is Python's [None]. *)
Definition serialize_username_and_slug (item : Item) : option string :=
  match user item, slug item, SINGLE_CHAR_ABBR with
  | Some n, Some item_slug, Some abbr =>
      if truthy (slug item) && truthy SINGLE_CHAR_ABBR
      then Some (join "/" ["u"; username n; abbr; item_slug])
      else None
  | _, _, _ => None
  end.

End Serializer.

(** [deserialize_published], on a value that [validate.bool] accepts. *)
Definition deserialize_published (i : nat) (val : bool) : M bool :=
  item ← get_item i;
  if Bool.eqb (published item) val then mret val
  else
    (if val then publish i false else unpublish i false);;
    item' ← get_item i;
    mret (published item').

(** [deserialize_importable], on a value that [validate.bool] accepts. *)
Definition deserialize_importable (i : nat) (val : bool) : M bool :=
  item ← get_item i;
  if Bool.eqb (importable item) val then mret val
  else
    (if val then make_importable i false else make_non_importable i false);;
    item' ← get_item i;
    mret (published item').

(** ** Notions of the further properties *)

(** The table is up to date: no object has a pending change. *)
Definition in_sync (s : Session) : Prop := rows s = objs s.

(** No two importable items of one owner in [l] have the same slug. *)
Definition unique_importable_slugs (l : list Item) : Prop :=
  forall j k rj rk c,
    j <> k -> l !! j = Some rj -> l !! k = Some rk ->
    user rj = user rk -> importable rj = true -> importable rk = true ->
    slug rj = Some c -> slug rk <> Some c.

(** The call flushes. *)
Definition flushes (c : call) : bool :=
  match c with
  | Publish flush | Unpublish flush | MakeImportable flush
  | MakeNonImportable flush => flush
  end.

(** The item after call [c], when [get_unique_slug] returns [new_slug]. *)
Definition after_call (new_slug : string) (c : call) (item : Item) : Item :=
  match c with
  | Publish _ => made_published new_slug item
  | Unpublish _ => setattr Published false item
  | MakeImportable _ => made_importable new_slug item
  | MakeNonImportable _ => made_non_importable item
  end.

(** An item of user 1 named [Quarterly Report], neither importable nor
    published, without a slug. *)
Definition quarterly : Item :=
  mkItem (Some 1) None false false None "Quarterly Report" [].

Definition quarterly_session : Session :=
  mkSession [quarterly] [quarterly] 0.

(** * Properties *)

(** ** Examples of slug validation and normalisation *)

Example is_valid_slug_my_item : is_valid_slug "my-item-1" = true.
Proof. reflexivity. Qed.

Example is_valid_slug_upper : is_valid_slug "My Item" = false.
Proof. reflexivity. Qed.

Example is_valid_slug_empty : is_valid_slug EmptyString = false.
Proof. reflexivity. Qed.

Example slugify_cool_item : _slugify "My  Cool Item!!" = "My-Cool-Item".
Proof. reflexivity. Qed.

Example format_slug_2 : PyStr.format_slug "report" 2 = "report-2".
Proof. reflexivity. Qed.

(** ** The candidates of the probe loop *)

Lemma format_int_inj (a b : nat) :
  PyStr.format_int a = PyStr.format_int b -> a = b.
Proof.
  unfold PyStr.format_int. intros E.
  apply (f_equal NilEmpty.uint_of_string) in E.
  rewrite !NilEmpty.usu in E.
  apply Unsigned.to_uint_inj. injection E as E. exact E.
Qed.

Lemma append_cons (c : ascii) (p x : string) :
  (String c p ++ x)%string = String c (p ++ x).
Proof. reflexivity. Qed.

Lemma append_cancel_l (p x y : string) : (p ++ x = p ++ y)%string -> x = y.
Proof.
  induction p as [|c p IH]; [tauto|].
  rewrite !append_cons. intros E. apply IH. congruence.
Qed.

Lemma append_longer (p : string) (c : ascii) (x : string) :
  (p ++ String c x)%string <> p.
Proof.
  induction p as [|d p IH]; [discriminate|].
  rewrite append_cons. intros E. apply IH. injection E as E. exact E.
Qed.

Lemma format_slug_inj (slug_base : string) (a b : nat) :
  PyStr.format_slug slug_base a = PyStr.format_slug slug_base b -> a = b.
Proof.
  unfold PyStr.format_slug. intros E.
  apply append_cancel_l in E. rewrite !append_cons in E.
  apply format_int_inj. injection E as E. exact E.
Qed.

Lemma format_slug_not_base (slug_base : string) (k : nat) :
  PyStr.format_slug slug_base k <> slug_base.
Proof. unfold PyStr.format_slug. rewrite append_cons. apply append_longer. Qed.

(** The suffix grows with the counter, so no candidate comes twice. *)
Lemma candidate_inj (slug_base : string) (a b : nat) :
  candidate slug_base a = candidate slug_base b -> a = b.
Proof.
  destruct a as [|a], b as [|b]; simpl; intros E.
  - reflexivity.
  - symmetry in E. now apply format_slug_not_base in E.
  - now apply format_slug_not_base in E.
  - now apply format_slug_inj in E.
Qed.

Lemma candidates_NoDup (slug_base : string) (n : nat) :
  NoDup (map (candidate slug_base) (seq 0 n)).
Proof.
  apply NoDup_fmap_2.
  - intros a b. apply candidate_inj.
  - apply NoDup_seq.
Qed.

(** ** The probe loop, for any test and any base *)

Section Probe.

Variable taken : string -> bool.
Variable slug_base : string.

(** Pigeonhole: a test that holds only of the members of a list [used]
    fails on one of the first [length used + 1] candidates. *)
Lemma free_candidate (used : list string) :
  (forall c, taken c = true -> c ∈ used) ->
  exists k, k <= length used /\ taken (candidate slug_base k) = false.
Proof.
  intros Hused.
  destruct (decide (Forall (λ k, taken (candidate slug_base k) = true)
                           (seq 0 (S (length used))))) as [Hall|Hnot].
  - exfalso.
    assert (Hsub : map (candidate slug_base) (seq 0 (S (length used))) ⊆+ used).
    { apply NoDup_submseteq; [apply candidates_NoDup|].
      intros c Hc. apply list_elem_of_fmap in Hc as (k & -> & Hk).
      apply Hused. rewrite Forall_forall in Hall. now apply Hall. }
    apply submseteq_length in Hsub.
    rewrite length_map, length_seq in Hsub. lia.
  - apply not_Forall_Exists in Hnot; [|intros k; apply _].
    apply Exists_exists in Hnot as (k & Hk & Hfree).
    exists k. split.
    + apply elem_of_seq in Hk. lia.
    + apply not_true_is_false, Hfree.
Qed.

(** The loop, started on candidate [k], returns the first candidate from
    [k] on that is free, when the fuel reaches it. *)
Lemma probe_first_free :
  forall fuel k j,
    k <= j -> j < k + fuel ->
    taken (candidate slug_base j) = false ->
    (forall m, k <= m -> m < j -> taken (candidate slug_base m) = true) ->
    probe fuel taken slug_base (candidate slug_base k) (S k)
    = Some (candidate slug_base j).
Proof.
  induction fuel as [|fuel IH]; intros k j Hkj Hj Hfree Hbelow; [lia|].
  simpl. destruct (decide (k = j)) as [->|Hne].
  - now rewrite Hfree.
  - rewrite Hbelow by lia.
    change (PyStr.format_slug slug_base (S k)) with (candidate slug_base (S k)).
    apply IH; [lia | lia | assumption |]. intros m ? ?. apply Hbelow; lia.
Qed.

(** Among the candidates up to a free one there is a first free one. *)
Lemma first_free_below :
  forall n, taken (candidate slug_base n) = false ->
    exists j, j <= n /\ taken (candidate slug_base j) = false /\
              forall m, m < j -> taken (candidate slug_base m) = true.
Proof.
  induction n as [n IH] using lt_wf_ind. intros Hfree.
  destruct (decide (Forall (λ m, taken (candidate slug_base m) = true) (seq 0 n)))
    as [Hall|Hnot].
  - exists n. split; [lia|]. split; [assumption|].
    intros m Hm. rewrite Forall_forall in Hall. apply Hall.
    apply elem_of_seq. lia.
  - apply not_Forall_Exists in Hnot; [|intros k; apply _].
    apply Exists_exists in Hnot as (k & Hk & Hk').
    apply elem_of_seq in Hk.
    destruct (IH k) as (j & ? & ? & ?); [lia | apply not_true_is_false, Hk' |].
    exists j. split; [lia|]. now split.
Qed.

End Probe.

(** ** What the queries of the probe loop see *)

Lemma length_nonzero_elem {A : Type} (l : list A) :
  negb (length l =? 0) = true <-> exists x, x ∈ l.
Proof.
  destruct l as [|x l]; simpl.
  - split; [discriminate|]. intros [x Hx]. now apply elem_of_nil in Hx.
  - split; [|reflexivity]. intros _. exists x. apply list_elem_of_here.
Qed.

Lemma slug_taken_spec (s : Session) (u : User) (c : string) :
  slug_taken s u c = true <-> used_by_importable s u c.
Proof.
  unfold slug_taken, importable_with_slug, used_by_importable.
  rewrite length_nonzero_elem. split.
  - intros [r Hr]. apply list_elem_of_filter in Hr as [(? & ? & ?) ?]. eauto.
  - intros (r & ? & ? & ? & ?). exists r. apply list_elem_of_filter. eauto.
Qed.

Lemma slug_taken_false (s : Session) (u : User) (c : string) :
  slug_taken s u c = false <-> ~ used_by_importable s u c.
Proof.
  rewrite <- slug_taken_spec. destruct (slug_taken s u c); split; congruence.
Qed.

(** Every taken slug is the slug of one of the owner's importable rows. *)
Lemma slug_taken_owner_importable (s : Session) (u : User) (c : string) :
  slug_taken s u c = true ->
  c ∈ map (λ r, default EmptyString (slug r)) (owner_importable u s).
Proof.
  intros H. apply slug_taken_spec in H as (r & Hr & Hu & Hi & Hs).
  apply list_elem_of_fmap. exists r. split; [now rewrite Hs|].
  apply list_elem_of_filter. eauto.
Qed.

Lemma owner_importable_le (s : Session) (u : User) :
  length (owner_importable u s) <= length (rows s).
Proof. apply length_filter. Qed.

(** The loop of [get_unique_slug]: it stops at the first free candidate,
    whose index is at most the number of the owner's importable rows,
    and the result does not depend on the fuel beyond that index. *)
Lemma probe_result (s : Session) (u : User) (slug_base : string) :
  exists k,
    k <= length (owner_importable u s) /\
    slug_taken s u (candidate slug_base k) = false /\
    (forall m, m < k -> slug_taken s u (candidate slug_base m) = true) /\
    (forall fuel, k < fuel ->
       probe fuel (slug_taken s u) slug_base slug_base 1
       = Some (candidate slug_base k)).
Proof.
  destruct (free_candidate (slug_taken s u) slug_base
              (map (λ r, default EmptyString (slug r)) (owner_importable u s)))
    as (n & Hn & Hfree).
  { apply slug_taken_owner_importable. }
  rewrite length_map in Hn.
  destruct (first_free_below _ _ n Hfree) as (k & Hk & Hkfree & Hbelow).
  exists k. split; [lia|]. split; [assumption|]. split; [assumption|].
  intros fuel Hfuel.
  apply (probe_first_free (slug_taken s u) slug_base fuel 0 k);
    [lia | lia | assumption |]. intros m _. apply Hbelow.
Qed.

(** [get_unique_slug] in terms of the loop. *)
Lemma get_unique_slug_unfold (s : Session) (i : nat) (item : Item) :
  objs s !! i = Some item ->
  get_unique_slug i s = first_free_slug (user item) (slug_base_of item) s.
Proof.
  intros Hi. unfold get_unique_slug, mbind, M_bind, get_item. now rewrite Hi.
Qed.

Lemma first_free_slug_result (s : Session) (u : User) (slug_base : string) :
  exists k,
    k <= length (owner_importable u s) /\
    first_free_slug u slug_base s = Done (candidate slug_base k) s /\
    slug_taken s u (candidate slug_base k) = false /\
    (forall m, m < k -> slug_taken s u (candidate slug_base m) = true).
Proof.
  destruct (probe_result s u slug_base) as (k & Hk & Hfree & Hbelow & Hprobe).
  exists k. split; [assumption|]. split; [|now split].
  unfold first_free_slug. rewrite Hprobe; [reflexivity|].
  pose proof (owner_importable_le s u). lia.
Qed.

(** [get_unique_slug] returns the first candidate that no stored importable
    item of the owner uses, and leaves the session as it is. *)
Lemma get_unique_slug_result (s : Session) (i : nat) (item : Item) :
  objs s !! i = Some item ->
  exists k,
    get_unique_slug i s = Done (candidate (slug_base_of item) k) s /\
    ~ used_by_importable s (user item) (candidate (slug_base_of item) k) /\
    forall m, m < k ->
      used_by_importable s (user item) (candidate (slug_base_of item) m).
Proof.
  intros E. rewrite (get_unique_slug_unfold _ _ _ E).
  destruct (first_free_slug_result s (user item) (slug_base_of item))
    as (k & _ & Hrun & Hfree & Hbelow).
  exists k. split; [exact Hrun|]. split; [now apply slug_taken_false|].
  intros m Hm. now apply slug_taken_spec, Hbelow.
Qed.

(** The fuel [get_unique_slug] passes to its loop suffices. *)
Lemma probe_enough_fuel (s : Session) (u : User) (slug_base : string) :
  is_Some (probe (S (length (rows s))) (slug_taken s u) slug_base slug_base 1).
Proof.
  destruct (probe_result s u slug_base) as (k & Hk & _ & _ & Hprobe).
  rewrite Hprobe; [eauto|]. pose proof (owner_importable_le s u). lia.
Qed.

(** ** The effect of the state transitions *)

Lemma bind_done {A B : Type} (m : M A) (k : A -> M B) (s s' : Session) (a : A) :
  m s = Done a s' -> (m ≫= k) s = k a s'.
Proof. intros E. unfold mbind, M_bind. now rewrite E. Qed.

Lemma get_item_done (s : Session) (i : nat) (item : Item) :
  objs s !! i = Some item -> get_item i s = Done item s.
Proof. intros E. unfold get_item. now rewrite E. Qed.

Lemma modify_item_done (s : Session) (i : nat) (item : Item) (f : Item -> Item) :
  objs s !! i = Some item -> modify_item i f s = Done tt (set_obj i (f item) s).
Proof. intros E. unfold modify_item. now rewrite E. Qed.

Lemma when_flush (flush : bool) (s : Session) :
  when flush session_flush s = Done tt (commit flush s).
Proof. now destruct flush. Qed.

Lemma objs_set_obj (s : Session) (i : nat) (item x : Item) :
  objs s !! i = Some item -> objs (set_obj i x s) !! i = Some x.
Proof.
  intros E. simpl. apply list_lookup_insert_eq. eapply lookup_lt_Some, E.
Qed.

Lemma set_obj_twice (s : Session) (i : nat) (x y : Item) :
  set_obj i x (set_obj i y s) = set_obj i x s.
Proof. unfold set_obj. simpl. now rewrite list_insert_insert_eq. Qed.

Lemma objs_commit (flush : bool) (s : Session) : objs (commit flush s) = objs s.
Proof. now destruct flush. Qed.

Lemma rows_commit (flush : bool) (s : Session) :
  rows (commit flush s) = if flush then objs s else rows s.
Proof. now destruct flush. Qed.

Lemma _session_setattr_effect (s : Session) (i : nat) (item : Item)
    (attr : flag) (val flush : bool) :
  objs s !! i = Some item ->
  _session_setattr i attr val flush s
  = Done i (commit flush (set_obj i (setattr attr val item) s)).
Proof.
  intros E. unfold _session_setattr.
  rewrite (bind_done _ _ _ _ _ (modify_item_done _ _ _ _ E)).
  unfold session_add. rewrite (bind_done _ _ _ _ tt eq_refl).
  now rewrite (bind_done _ _ _ _ _ (when_flush _ _)).
Qed.

Lemma unpublish_effect (s : Session) (i : nat) (item : Item) (flush : bool) :
  objs s !! i = Some item ->
  unpublish i flush s
  = Done i (commit flush (set_obj i (setattr Published false item) s)).
Proof. apply _session_setattr_effect. Qed.

Lemma create_unique_slug_effect (s : Session) (i : nat) (item : Item)
    (new_slug : string) (flush : bool) :
  objs s !! i = Some item ->
  get_unique_slug i s = Done new_slug s ->
  create_unique_slug i flush s
  = Done i (commit flush (set_obj i (set_slug_attr (Some new_slug) item) s)).
Proof.
  intros E Hslug. unfold create_unique_slug.
  rewrite (bind_done _ _ _ _ _ Hslug).
  rewrite (bind_done _ _ _ _ _ (modify_item_done _ _ _ _ E)).
  unfold session_add. rewrite (bind_done _ _ _ _ tt eq_refl).
  now rewrite (bind_done _ _ _ _ _ (when_flush _ _)).
Qed.

(** [get_unique_slug] returns, and leaves the session as it is. *)
Lemma get_unique_slug_done (s : Session) (i : nat) (item : Item) :
  objs s !! i = Some item ->
  exists new_slug, get_unique_slug i s = Done new_slug s.
Proof.
  intros E. rewrite (get_unique_slug_unfold _ _ _ E).
  destruct (first_free_slug_result s (user item) (slug_base_of item))
    as (k & _ & Hk & _). eauto.
Qed.

Lemma make_importable_effect (s : Session) (i : nat) (item : Item)
    (new_slug : string) (flush : bool) :
  objs s !! i = Some item ->
  get_unique_slug i s = Done new_slug s ->
  make_importable i flush s
  = Done i (commit flush (set_obj i (made_importable new_slug item) s)).
Proof.
  intros E Hslug. unfold make_importable.
  rewrite (bind_done _ _ _ _ _ (create_unique_slug_effect _ _ _ _ false E Hslug)).
  simpl commit.
  rewrite (_session_setattr_effect _ _ _ _ _ _ (objs_set_obj _ _ _ _ E)).
  now rewrite set_obj_twice.
Qed.

Lemma make_non_importable_effect (s : Session) (i : nat) (item : Item) (flush : bool) :
  objs s !! i = Some item ->
  make_non_importable i flush s
  = Done i (commit flush (set_obj i (made_non_importable item) s)).
Proof.
  intros E. unfold make_non_importable, made_non_importable.
  rewrite (bind_done _ _ _ _ _ (get_item_done _ _ _ E)).
  destruct (published item).
  - rewrite (bind_done _ _ _ _ _ (unpublish_effect _ _ _ false E)). simpl commit.
    rewrite (_session_setattr_effect _ _ _ _ _ _ (objs_set_obj _ _ _ _ E)).
    now rewrite set_obj_twice.
  - rewrite (bind_done _ _ _ _ i eq_refl).
    now apply _session_setattr_effect.
Qed.

Lemma publish_effect (s : Session) (i : nat) (item : Item)
    (new_slug : string) (flush : bool) :
  objs s !! i = Some item ->
  get_unique_slug i s = Done new_slug s ->
  publish i flush s
  = Done i (commit flush (set_obj i (made_published new_slug item) s)).
Proof.
  intros E Hslug. unfold publish, made_published.
  rewrite (bind_done _ _ _ _ _ (get_item_done _ _ _ E)).
  destruct (importable item); simpl negb; cbv iota.
  - rewrite (bind_done _ _ _ _ i eq_refl).
    now apply _session_setattr_effect.
  - rewrite (bind_done _ _ _ _ _ (make_importable_effect _ _ _ _ false E Hslug)).
    simpl commit.
    rewrite (_session_setattr_effect _ _ _ _ _ _ (objs_set_obj _ _ _ _ E)).
    now rewrite set_obj_twice.
Qed.

(** ** Sequences of state transitions *)

Lemma made_importable_invariant (new_slug : string) (item : Item) :
  published_importable (made_importable new_slug item).
Proof. now unfold published_importable. Qed.

Lemma made_non_importable_invariant (item : Item) :
  published_importable (made_non_importable item).
Proof.
  unfold published_importable, made_non_importable.
  destruct (published item) eqn:E; simpl; [|rewrite E]; discriminate.
Qed.

Lemma made_published_invariant (new_slug : string) (item : Item) :
  published_importable (made_published new_slug item).
Proof.
  unfold published_importable, made_published.
  destruct (importable item) eqn:E; simpl; intros _; [exact E | reflexivity].
Qed.

Lemma unpublished_invariant (item : Item) :
  published_importable (setattr Published false item).
Proof. unfold published_importable. simpl. discriminate. Qed.

(** A session in which the object behind [i] became [x], which satisfies
    the invariant, satisfies it in the table too after the commit. *)
Lemma commit_invariant (s : Session) (i : nat) (item x : Item) (flush : bool) :
  objs s !! i = Some item ->
  published_importable x ->
  published_importable_at (rows s) i ->
  objs (commit flush (set_obj i x s)) !! i = Some x /\
  published_importable_at (rows (commit flush (set_obj i x s))) i.
Proof.
  intros E Hx Hrows. rewrite objs_commit, rows_commit.
  pose proof (objs_set_obj s i item x E) as Hi. split; [exact Hi|].
  destruct flush; [|exact Hrows].
  intros y Hy. rewrite Hi in Hy. now injection Hy as <-.
Qed.

(** One transition keeps the invariant of the object and of its row. *)
Lemma run_call_invariant (s : Session) (i : nat) (item : Item) (c : call) :
  objs s !! i = Some item ->
  published_importable_at (rows s) i ->
  exists s' item',
    run_call i c s = Done i s' /\ objs s' !! i = Some item' /\
    published_importable item' /\ published_importable_at (rows s') i.
Proof.
  intros E Hrows.
  destruct (get_unique_slug_done s i item E) as [new_slug Hslug].
  destruct c as [flush|flush|flush|flush]; simpl run_call.
  - exists (commit flush (set_obj i (made_published new_slug item) s)), (made_published new_slug item).
    pose proof (made_published_invariant new_slug item) as Hinv.
    destruct (commit_invariant s i item _ flush E Hinv Hrows).
    now rewrite (publish_effect _ _ _ _ flush E Hslug).
  - exists (commit flush (set_obj i (setattr Published false item) s)), (setattr Published false item).
    pose proof (unpublished_invariant item) as Hinv.
    destruct (commit_invariant s i item _ flush E Hinv Hrows).
    now rewrite (unpublish_effect _ _ _ flush E).
  - exists (commit flush (set_obj i (made_importable new_slug item) s)), (made_importable new_slug item).
    pose proof (made_importable_invariant new_slug item) as Hinv.
    destruct (commit_invariant s i item _ flush E Hinv Hrows).
    now rewrite (make_importable_effect _ _ _ _ flush E Hslug).
  - exists (commit flush (set_obj i (made_non_importable item) s)), (made_non_importable item).
    pose proof (made_non_importable_invariant item) as Hinv.
    destruct (commit_invariant s i item _ flush E Hinv Hrows).
    now rewrite (make_non_importable_effect _ _ _ flush E).
Qed.

Lemma run_calls_invariant (i : nat) (cs : list call) :
  forall (s : Session) (item : Item),
    objs s !! i = Some item ->
    published_importable item ->
    published_importable_at (rows s) i ->
    exists s' item',
      run_calls i cs s = Done tt s' /\ objs s' !! i = Some item' /\
      published_importable item' /\ published_importable_at (rows s') i.
Proof.
  induction cs as [|c cs IH]; intros s item E Hinv Hrows.
  - exists s, item. now repeat split.
  - destruct (run_call_invariant s i item c E Hrows)
      as (s1 & item1 & Hrun & E1 & Hinv1 & Hrows1).
    destruct (IH s1 item1 E1 Hinv1 Hrows1) as (s' & item' & Hrest & ?).
    exists s', item'. split; [|assumption].
    simpl run_calls. now rewrite (bind_done _ _ _ _ _ Hrun).
Qed.

(** C1.  From a state in which resource [i] satisfies [published ⇒
    importable], as a live object and in its stored row, every sequence of
    calls of [publish], [unpublish], [make_importable] and
    [make_non_importable] on [i] (flushing or deferring, call by call) runs
    to the end without an error and leaves [i] with [published ⇒
    importable], again as a live object and in its row.  [publish] on a
    resource that is not importable is [make_importable] followed by the
    assignment of its own flag, and [make_non_importable] on a published
    resource is [unpublish] followed by the assignment of its own flag. *)
Theorem published_implies_importable_preserved
    (s : Session) (i : nat) (item : Item) (cs : list call) :
  objs s !! i = Some item ->
  published_importable item ->
  published_importable_at (rows s) i ->
  (exists s' item',
     run_calls i cs s = Done tt s' /\ objs s' !! i = Some item' /\
     published_importable item' /\ published_importable_at (rows s') i) /\
  (importable item = false -> forall flush,
     publish i flush s
     = (make_importable i false;; _session_setattr i Published true flush) s) /\
  (published item = true -> forall flush,
     make_non_importable i flush s
     = (unpublish i false;; _session_setattr i Importable false flush) s).
Proof.
  intros E Hinv Hrows. split; [now apply (run_calls_invariant i cs s item)|].
  split; intros Hflag flush.
  - unfold publish. rewrite (bind_done _ _ _ _ _ (get_item_done _ _ _ E)).
    now rewrite Hflag.
  - unfold make_non_importable. rewrite (bind_done _ _ _ _ _ (get_item_done _ _ _ E)).
    now rewrite Hflag.
Qed.

Lemma published_implies_importable_preserved_witness :
  exists s' item',
    run_calls 2 [Publish false; MakeNonImportable true; Unpublish true;
                 MakeImportable false; Publish true] report_session = Done tt s' /\
    objs s' !! 2 = Some item' /\
    published_importable item' /\ published_importable_at (rows s') 2.
Proof.
  apply (published_implies_importable_preserved report_session 2 report_new).
  - reflexivity.
  - intros H. discriminate H.
  - intros item H. injection H as <-. intros H. discriminate H.
Defined.

(** ** The unique slug *)

(** C2.  [get_unique_slug] takes as base the slug of the resource when it
    has a non-empty one, and otherwise the normalised lower-cased title (the
    name, for a class without a title).  It returns the first of the
    candidates base, base-1, base-2, ... that is not the slug of a stored
    importable resource of the same owner: the candidate returned is free
    and every candidate before it is in use.  When the slugs in use are
    [report] and [report-1] and the base is [report], the result is
    [report-2]. *)
Theorem get_unique_slug_first_free (s : Session) (i : nat) (item : Item) :
  objs s !! i = Some item ->
  (forall c, slug item = Some c -> c <> EmptyString -> slug_base_of item = c) /\
  (slug item = None \/ slug item = Some EmptyString ->
   slug_base_of item = _slugify (PyStr.lower (default (name item) (title item)))) /\
  (exists k,
     get_unique_slug i s = Done (candidate (slug_base_of item) k) s /\
     ~ used_by_importable s (user item) (candidate (slug_base_of item) k) /\
     forall m, m < k ->
       used_by_importable s (user item) (candidate (slug_base_of item) m)) /\
  (slug_base_of item = "report" ->
   (forall c, used_by_importable s (user item) c <-> c = "report" \/ c = "report-1") ->
   get_unique_slug i s = Done "report-2" s).
Proof.
  intros E.
  pose proof (get_unique_slug_result s i item E) as Hfirst.
  split; [|split; [|split; [exact Hfirst|]]].
  - intros c Hc Hne. unfold slug_base_of. rewrite Hc. now destruct c.
  - unfold slug_base_of, _default_slug_base.
    intros [-> | ->]; now destruct (title item).
  - intros Hbase Hused. destruct Hfirst as (k & Hrun & Hfree & Hbelow).
    rewrite Hbase in *. rewrite Hrun.
    assert (k = 2) as ->; [|reflexivity].
    destruct k as [|[|[|k]]].
    + exfalso. apply Hfree, Hused. now left.
    + exfalso. apply Hfree, Hused. now right.
    + reflexivity.
    + exfalso. assert (H2 : 2 < S (S (S k))) by lia.
      apply Hbelow, Hused in H2. now destruct H2.
Qed.

Lemma get_unique_slug_first_free_witness :
  get_unique_slug 2 report_session = Done "report-2" report_session.
Proof.
  destruct (get_unique_slug_first_free report_session 2 report_new eq_refl)
    as (_ & _ & _ & Hreport).
  apply Hreport; [reflexivity|].
  intros c. split.
  - intros (r & Hr & _ & _ & Hslug).
    apply list_elem_of_In in Hr. simpl in Hr.
    destruct Hr as [<- | [<- | [<- | []]]]; simpl in Hslug.
    + left. now injection Hslug.
    + right. now injection Hslug.
    + discriminate Hslug.
  - intros [-> | ->].
    + exists report_0. split; [apply list_elem_of_here | now repeat split].
    + exists report_1.
      split; [apply list_elem_of_further, list_elem_of_here | now repeat split].
Defined.

(** C7.  [get_unique_slug] terminates: with [n] the number of stored
    importable resources of the owner, the loop stops at a candidate of
    index [k <= n] that no importable resource of the owner uses, within
    [k + 1] tests: any fuel above [k] gives this result; so the call
    returns. *)
Theorem get_unique_slug_terminates (s : Session) (i : nat) (item : Item) :
  objs s !! i = Some item ->
  exists k new_slug,
    k <= length (owner_importable (user item) s) /\
    (forall fuel, k < fuel ->
       probe fuel (slug_taken s (user item)) (slug_base_of item) (slug_base_of item) 1
       = Some new_slug) /\
    get_unique_slug i s = Done new_slug s /\
    ~ used_by_importable s (user item) new_slug.
Proof.
  intros E.
  destruct (probe_result s (user item) (slug_base_of item))
    as (k & Hk & Hfree & _ & Hprobe).
  exists k, (candidate (slug_base_of item) k).
  split; [exact Hk|]. split; [exact Hprobe|]. split; [|now apply slug_taken_false].
  rewrite (get_unique_slug_unfold _ _ _ E). unfold first_free_slug.
  rewrite Hprobe; [reflexivity|]. pose proof (owner_importable_le s (user item)). lia.
Qed.

Lemma get_unique_slug_terminates_witness :
  exists k new_slug,
    k <= length (owner_importable (Some 1) report_session) /\
    (forall fuel, k < fuel ->
       probe fuel (slug_taken report_session (Some 1)) "report" "report" 1
       = Some new_slug) /\
    get_unique_slug 2 report_session = Done new_slug report_session /\
    ~ used_by_importable report_session (Some 1) new_slug.
Proof.
  apply (get_unique_slug_terminates report_session 2 report_new). reflexivity.
Defined.

(** ** Access *)

(** C3.  [is_accessible] tests, in this order: the item is importable
    (true, whoever asks); the user owns it (true); the user is anonymous
    (false); the user is among the users the item is shared with (true);
    and is false otherwise. *)
Theorem is_accessible_order `{UserManager} (item : Item) (u : User) :
  (importable item = true -> is_accessible item u = true) /\
  (importable item = false -> is_owner item u = true ->
   is_accessible item u = true) /\
  (importable item = false -> is_owner item u = false ->
   is_anonymous u = true -> is_accessible item u = false) /\
  (importable item = false -> is_owner item u = false ->
   is_anonymous u = false -> u ∈ users_shared_with_dot_users item ->
   is_accessible item u = true) /\
  (importable item = false -> is_owner item u = false ->
   is_anonymous u = false -> u ∉ users_shared_with_dot_users item ->
   is_accessible item u = false).
Proof.
  unfold is_accessible. repeat split.
  - now intros ->.
  - now intros -> ->.
  - now intros -> -> ->.
  - intros -> -> -> Hin. now rewrite bool_decide_eq_true_2.
  - intros -> -> -> Hin. now rewrite bool_decide_eq_false_2.
Qed.

Lemma is_accessible_order_witness :
  @is_accessible example_users report_0 None = true /\
  @is_accessible example_users private_item (Some 1) = true /\
  @is_accessible example_users private_item None = false /\
  @is_accessible example_users private_item (Some 2) = true /\
  @is_accessible example_users private_item (Some 3) = false.
Proof.
  pose proof (@is_accessible_order example_users report_0 None) as (H1 & _).
  pose proof (@is_accessible_order example_users private_item (Some 1)) as (_ & H2 & _).
  pose proof (@is_accessible_order example_users private_item None) as (_ & _ & H3 & _).
  pose proof (@is_accessible_order example_users private_item (Some 2)) as (_ & _ & _ & H4 & _).
  pose proof (@is_accessible_order example_users private_item (Some 3)) as (_ & _ & _ & _ & H5).
  split; [|split; [|split; [|split]]].
  - apply H1. reflexivity.
  - apply H2; reflexivity.
  - apply H3; reflexivity.
  - apply H4; [reflexivity | reflexivity | reflexivity |].
    apply list_elem_of_here.
  - apply H5; [reflexivity | reflexivity | reflexivity |].
    intros Hin. apply list_elem_of_In in Hin. simpl in Hin.
    destruct Hin as [Hin | []]. discriminate Hin.
Defined.

(** ** Slugs of importable items *)

(** C4.  [make_importable] on an item whose name normalises to the empty
    string, flushed: the call succeeds and the stored row is importable with
    the empty slug; [publish] on the same item ends in the same way. *)
Theorem make_importable_empty_slug :
  let stored := mkItem (Some 1) (Some EmptyString) true false None "!!!" [] in
  _slugify (_default_slug_base punctuation_item) = EmptyString /\
  make_importable 0 true punctuation_session
  = Done 0 (mkSession [stored] [stored] 0) /\
  publish 0 true punctuation_session
  = Done 0 (mkSession [setattr Published true stored] [setattr Published true stored] 0).
Proof. repeat split. Qed.

Lemma candidate_nonempty (slug_base : string) (k : nat) :
  slug_base <> EmptyString -> candidate slug_base k <> EmptyString.
Proof.
  intros Hne. destruct k as [|k]; [exact Hne|].
  destruct slug_base; [contradiction|discriminate].
Qed.

(** Outside the case of C4 the slug [make_importable] sets is not
    empty: it is enough that the base of the candidates is not. *)
Lemma make_importable_slug_nonempty (s : Session) (i : nat) (item : Item) (flush : bool) :
  objs s !! i = Some item ->
  slug_base_of item <> EmptyString ->
  exists s' item',
    make_importable i flush s = Done i s' /\ objs s' !! i = Some item' /\
    importable item' = true /\
    exists c, slug item' = Some c /\ c <> EmptyString.
Proof.
  intros E Hbase.
  destruct (get_unique_slug_result s i item E) as (k & Hslug & _).
  eexists _, _. split; [apply (make_importable_effect _ _ _ _ flush E Hslug)|].
  rewrite objs_commit. split; [apply (objs_set_obj _ _ _ _ E)|].
  split; [reflexivity|]. eexists. split; [reflexivity|].
  now apply candidate_nonempty.
Qed.

(** ** Setting a slug *)

Lemma _slug_exists_spec (s : Session) (u : User) (c : string) :
  exists b, _slug_exists u c s = Done b s /\
    (b = true <-> exists r, r ∈ rows s /\ user r = u /\ slug r = Some c).
Proof.
  eexists. split; [reflexivity|]. rewrite length_nonzero_elem.
  unfold rows_with_slug. split.
  - intros [r Hr]. apply list_elem_of_filter in Hr as [[? ?] ?]. eauto.
  - intros (r & ? & ? & ?). exists r. apply list_elem_of_filter. eauto.
Qed.

(** The three ways [set_slug] goes. *)
Lemma set_slug_cases (s : Session) (i : nat) (c : string) (u : User) (flush : bool) :
  (is_valid_slug c = false /\
   set_slug i c u flush s = Raise (RequestParameterInvalidException c) s) \/
  (is_valid_slug c = true /\
   (exists r, r ∈ rows s /\ user r = u /\ slug r = Some c) /\
   set_slug i c u flush s = Raise (Conflict c) s) \/
  (is_valid_slug c = true /\
   ~ (exists r, r ∈ rows s /\ user r = u /\ slug r = Some c) /\
   set_slug i c u flush s
   = (modify_item i (set_slug_attr (Some c));; when flush session_flush;; mret i) s).
Proof.
  unfold set_slug. destruct (is_valid_slug c); [right|now left].
  change (negb true) with false. cbv iota.
  destruct (_slug_exists_spec s u c) as (b & Hrun & Hb).
  rewrite (bind_done _ _ _ _ _ Hrun). destruct b.
  - left. split; [reflexivity|]. split; [now apply Hb|reflexivity].
  - right. split; [reflexivity|]. split; [|reflexivity].
    intros Hex. apply Hb in Hex. discriminate Hex.
Qed.

(** After its two tests [set_slug] does not raise. *)
Lemma set_slug_assign_no_raise (s s' : Session) (i : nat) (c : string)
    (flush : bool) (e : exn) :
  (modify_item i (set_slug_attr (Some c));; when flush session_flush;; mret i) s
  <> Raise e s'.
Proof.
  unfold mbind, M_bind, modify_item.
  destruct (objs s !! i); [|discriminate].
  rewrite when_flush. discriminate.
Qed.

(** C5, as the code has it.  [set_slug] raises an invalid-input error if
    and only if the candidate fails [is_valid_slug].  For a valid
    candidate it raises [Conflict] if and only if a stored resource whose
    owner is the identity passed to the call has exactly this slug, whether
    importable or not.  Whenever it raises, the session is the one it was
    called in: no attribute is assigned and nothing is flushed. *)
Theorem set_slug_errors (s : Session) (i : nat) (c : string) (u : User) (flush : bool) :
  ((exists e s', set_slug i c u flush s = Raise e s' /\ class_of e = InvalidInput)
   <-> is_valid_slug c = false) /\
  (is_valid_slug c = true ->
   ((exists s', set_slug i c u flush s = Raise (Conflict c) s')
    <-> exists r, r ∈ rows s /\ user r = u /\ slug r = Some c)) /\
  (forall e s', set_slug i c u flush s = Raise e s' -> s' = s).
Proof.
  destruct (set_slug_cases s i c u flush)
    as [(Hv & Hrun) | [(Hv & Hex & Hrun) | (Hv & Hnex & Hrun)]]; rewrite Hrun.
  - split; [|split].
    + split; [intros _; exact Hv|]. intros _. now eexists _, _.
    + intros Hv'. congruence.
    + intros e s' [= _ <-]. reflexivity.
  - split; [|split].
    + split; [|congruence]. intros (e & s' & [= <- _] & He). discriminate He.
    + intros _. split; [intros _; exact Hex|]. intros _. now eexists.
    + intros e s' [= _ <-]. reflexivity.
  - split; [|split].
    + split; [|congruence].
      intros (e & s' & Hr & _). now apply set_slug_assign_no_raise in Hr.
    + intros _. split; [|intros Hex; contradiction].
      intros (s' & Hr). now apply set_slug_assign_no_raise in Hr.
    + intros e s' Hr. now apply set_slug_assign_no_raise in Hr.
Qed.

Lemma set_slug_errors_witness :
  (exists s', set_slug 1 "report" (Some 1) true two_items_session
              = Raise (Conflict "report") s') /\
  forall e s', set_slug 1 "report" (Some 1) true two_items_session = Raise e s' ->
               s' = two_items_session.
Proof.
  destruct (set_slug_errors two_items_session 1 "report" (Some 1) true)
    as (_ & Hconflict & Hsame).
  split; [|exact Hsame].
  apply Hconflict; [reflexivity|].
  exists titled_report. split; [apply list_elem_of_here | now split].
Defined.

(** C5 as the specification states it fails in both directions.  With a
    resource of user 1 stored under the slug [report], [set_slug] on another
    resource of user 1 with the candidate [report] and the identity of user
    2 succeeds; and [set_slug] on the only resource of user 1, with the slug
    it has already, raises [Conflict] although no other resource has
    it. *)
Lemma set_slug_conflict_counterexample :
  (objs two_items_session !! 1 = Some untitled /\
   (exists j r, j <> 1 /\ rows two_items_session !! j = Some r /\
                user r = user untitled /\ slug r = Some "report") /\
   is_valid_slug "report" = true /\
   forall s', set_slug 1 "report" (Some 2) true two_items_session
              <> Raise (Conflict "report") s') /\
  (objs one_item_session !! 0 = Some titled_report /\
   set_slug 0 "report" (Some 1) true one_item_session
   = Raise (Conflict "report") one_item_session /\
   ~ (exists j r, j <> 0 /\ rows one_item_session !! j = Some r /\
                  user r = user titled_report /\ slug r = Some "report")).
Proof.
  split.
  - split; [reflexivity|]. split; [|split; [reflexivity|discriminate]].
    exists 0, titled_report. now repeat split.
  - split; [reflexivity|]. split; [reflexivity|].
    intros (j & r & Hj & Hr & _). destruct j as [|j]; [contradiction|].
    discriminate Hr.
Qed.

(** C10.  [set_slug] consults neither the owner of the resource nor the
    user manager, and looks for the slug among the resources of the
    identity it is passed.  In a session where user 1 owns a resource with
    the slug [report], [set_slug] on a second resource of user 1, with the
    candidate [report] and the identity of user 2, succeeds, and the table
    then holds two resources of user 1 with the slug [report]. *)
Theorem set_slug_other_identity_duplicates :
  exists s',
    objs two_items_session !! 0 = Some titled_report /\
    objs two_items_session !! 1 = Some untitled /\
    user titled_report = Some 1 /\ user untitled = Some 1 /\
    slug titled_report = Some "report" /\
    set_slug 1 "report" (Some 2) true two_items_session = Done 1 s' /\
    exists r0 r1,
      rows s' !! 0 = Some r0 /\ rows s' !! 1 = Some r1 /\
      user r0 = Some 1 /\ user r1 = Some 1 /\
      slug r0 = Some "report" /\ slug r1 = Some "report".
Proof.
  eexists. repeat split. eexists _, _. repeat split.
Qed.

(** ** Share associations *)

Lemma get_share_assocs_of_user (s : Session) (i n : nat) :
  get_share_assocs i (Some n) s
  = Done (filter (λ a, assoc_user a = Some n) (stored_shares s i)) s.
Proof. reflexivity. Qed.

Lemma filter_none {A : Type} (P : A -> Prop) `{forall x, Decision (P x)} (l : list A) :
  (forall x, x ∈ l -> ~ P x) -> filter P l = [].
Proof.
  induction l as [|x l IH]; intros Hl; [reflexivity|].
  rewrite filter_cons_False; [|apply Hl, list_elem_of_here].
  apply IH. intros y Hy. apply Hl. now apply list_elem_of_further.
Qed.

Lemma unshare_with_missing (s : Session) (i : nat) (u : User) (flush : bool) :
  get_share_assocs i u s = Done [] s ->
  unshare_with i u flush s = Raise IndexError s.
Proof. intros Hq. unfold unshare_with. now rewrite (bind_done _ _ _ _ _ Hq). Qed.

Lemma unshare_with_found (s : Session) (i : nat) (item : Item) (u : User)
    (a : ShareAssoc) (rest : list ShareAssoc) (flush : bool) :
  objs s !! i = Some item ->
  get_share_assocs i u s = Done (a :: rest) s ->
  unshare_with i u flush s
  = Done a (commit flush (set_obj i (without_share a item) s)).
Proof.
  intros E Hq. unfold unshare_with, session_delete.
  rewrite (bind_done _ _ _ _ _ Hq).
  rewrite (bind_done _ _ _ _ _ (modify_item_done _ _ _ _ E)).
  now rewrite (bind_done _ _ _ _ _ (when_flush _ _)).
Qed.

Lemma share_with_existing (s : Session) (i : nat) (u : User)
    (a : ShareAssoc) (rest : list ShareAssoc) (flush : bool) :
  get_share_assocs i u s = Done (a :: rest) s ->
  share_with i u flush s = Done a s.
Proof. intros Hq. unfold share_with. now rewrite (bind_done _ _ _ _ _ Hq). Qed.

(** A new association for an item that has a slug: the slug stays. *)
Lemma share_with_new (s : Session) (i : nat) (item : Item) (u : User)
    (c : string) (flush : bool) :
  objs s !! i = Some item ->
  slug item = Some c -> c <> EmptyString ->
  get_share_assocs i u s = Done [] s ->
  share_with i u flush s
  = Done (mkShareAssoc (next_assoc s) u)
      (commit flush
         (set_obj i (with_share (mkShareAssoc (next_assoc s) u) item) (next_key s))).
Proof.
  intros E Hslug Hne Hq. unfold share_with. rewrite (bind_done _ _ _ _ _ Hq).
  unfold _create_user_share_assoc. fold (next_key s).
  assert (E' : objs (next_key s) !! i = Some item) by exact E.
  rewrite (bind_done _ _ _ _ _ (modify_item_done _ _ _ _ E')).
  rewrite (bind_done _ _ _ _ _ (get_item_done _ _ _ (objs_set_obj _ _ _ _ E'))).
  rewrite bool_decide_eq_false_2.
  - rewrite (bind_done _ _ _ _ i eq_refl).
    now rewrite (bind_done _ _ _ _ _ (when_flush _ _)).
  - simpl. rewrite Hslug. intros [H | H]; [discriminate H|]. congruence.
Qed.

(** ** What keeps the slug of an item *)

Lemma slug_of_commit_set_obj (s : Session) (i : nat) (item x : Item) (flush : bool) :
  objs s !! i = Some item ->
  slug_of (commit flush (set_obj i x s)) i = Some (slug x).
Proof.
  intros E. unfold slug_of. now rewrite objs_commit, (objs_set_obj _ _ _ _ E).
Qed.

Lemma slug_base_of_slug (item : Item) (c : string) :
  slug item = Some c -> c <> EmptyString -> slug_base_of item = c.
Proof. intros Hc Hne. unfold slug_base_of. rewrite Hc. now destruct c. Qed.

(** [make_importable] on an item with a slug: the new slug is the first
    free candidate, which is the slug itself when that is free, and a
    suffixed one when it is not. *)
Lemma make_importable_slug (s : Session) (i : nat) (item : Item) (c : string) (flush : bool) :
  objs s !! i = Some item ->
  slug item = Some c -> c <> EmptyString ->
  exists k s',
    make_importable i flush s = Done i s' /\
    slug_of s' i = Some (Some (candidate c k)) /\
    (k = 0 <-> ~ used_by_importable s (user item) c).
Proof.
  intros E Hc Hne.
  destruct (get_unique_slug_result s i item E) as (k & Hslug & Hfree & Hbelow).
  rewrite (slug_base_of_slug item c Hc Hne) in *.
  exists k. eexists. split; [apply (make_importable_effect _ _ _ _ flush E Hslug)|].
  split; [now rewrite (slug_of_commit_set_obj _ _ item)|].
  split; [now intros ->|]. intros Hunused.
  destruct k as [|k]; [reflexivity|]. exfalso. apply Hunused, (Hbelow 0). lia.
Qed.

(** C6, as the code has it.  For a resource with a non-empty slug [c]:
    [make_importable] leaves the slug in place when no stored importable
    resource of the owner has the slug [c]; [publish] leaves it in place
    when the resource is importable already or under the same condition;
    [make_non_importable], [unpublish], [share_with] and [unshare_with]
    leave it in place always (also when [unshare_with] raises). *)
Theorem slug_kept (s : Session) (i : nat) (item : Item) (c : string) :
  objs s !! i = Some item ->
  slug item = Some c ->
  c <> EmptyString ->
  (forall flush,
     ~ used_by_importable s (user item) c ->
     exists s', make_importable i flush s = Done i s' /\ slug_of s' i = Some (Some c)) /\
  (forall flush,
     importable item = true \/ ~ used_by_importable s (user item) c ->
     exists s', publish i flush s = Done i s' /\ slug_of s' i = Some (Some c)) /\
  (forall flush, exists s',
     make_non_importable i flush s = Done i s' /\ slug_of s' i = Some (Some c)) /\
  (forall flush, exists s',
     unpublish i flush s = Done i s' /\ slug_of s' i = Some (Some c)) /\
  (forall u flush, exists a s',
     share_with i u flush s = Done a s' /\ slug_of s' i = Some (Some c)) /\
  (forall u flush,
     (exists a s', unshare_with i u flush s = Done a s' /\ slug_of s' i = Some (Some c)) \/
     (exists e, unshare_with i u flush s = Raise e s)).
Proof.
  intros E Hc Hne.
  assert (Hhere : slug_of s i = Some (Some c)).
  { unfold slug_of. now rewrite E, <- Hc. }
  split; [|split; [|split; [|split; [|split]]]].
  - intros flush Hunused.
    destruct (make_importable_slug s i item c flush E Hc Hne) as (k & s' & Hrun & Hslug & Hk).
    exists s'. split; [exact Hrun|]. now rewrite (proj2 Hk Hunused) in Hslug.
  - intros flush Hcase.
    destruct (get_unique_slug_result s i item E) as (k & Hslug & Hfree & Hbelow).
    rewrite (slug_base_of_slug item c Hc Hne) in *.
    eexists. split; [apply (publish_effect _ _ _ _ flush E Hslug)|].
    rewrite (slug_of_commit_set_obj _ _ item) by exact E.
    unfold made_published. destruct (importable item) eqn:Himp; simpl.
    + now rewrite Hc.
    + destruct Hcase as [Hcase | Hunused]; [discriminate Hcase|].
      destruct k as [|k]; [reflexivity|]. exfalso. apply Hunused, (Hbelow 0). lia.
  - intros flush. eexists. split; [apply (make_non_importable_effect _ _ _ flush E)|].
    rewrite (slug_of_commit_set_obj _ _ item) by exact E.
    unfold made_non_importable. now destruct (published item); simpl; rewrite Hc.
  - intros flush. eexists. split; [apply (unpublish_effect _ _ _ flush E)|].
    rewrite (slug_of_commit_set_obj _ _ item) by exact E. simpl. now rewrite Hc.
  - intros u flush.
    destruct (get_share_assocs i u s) as [q s0| | |] eqn:Hq; try discriminate Hq.
    assert (s0 = s) as -> by (unfold get_share_assocs in Hq; congruence).
    destruct q as [|a rest].
    + eexists _, _. split; [apply (share_with_new _ _ _ _ c flush E Hc Hne Hq)|].
      rewrite (slug_of_commit_set_obj _ _ item) by exact E. simpl. now rewrite Hc.
    + exists a, s. split; [apply (share_with_existing _ _ _ _ rest flush Hq) | exact Hhere].
  - intros u flush.
    destruct (get_share_assocs i u s) as [q s0| | |] eqn:Hq; try discriminate Hq.
    assert (s0 = s) as -> by (unfold get_share_assocs in Hq; congruence).
    destruct q as [|a rest].
    + right. exists IndexError. now apply unshare_with_missing.
    + left. eexists _, _. split; [apply (unshare_with_found _ _ _ _ _ rest flush E Hq)|].
      rewrite (slug_of_commit_set_obj _ _ item) by exact E. simpl. now rewrite Hc.
Qed.

Lemma slug_kept_witness :
  (exists s', make_importable 0 true one_item_session = Done 0 s' /\
              slug_of s' 0 = Some (Some "report")) /\
  (exists s', publish 0 true one_item_session = Done 0 s' /\
              slug_of s' 0 = Some (Some "report")) /\
  (exists s', make_non_importable 0 true one_item_session = Done 0 s' /\
              slug_of s' 0 = Some (Some "report")) /\
  (exists s', unpublish 0 true one_item_session = Done 0 s' /\
              slug_of s' 0 = Some (Some "report")) /\
  (exists a s', share_with 0 (Some 2) true one_item_session = Done a s' /\
                slug_of s' 0 = Some (Some "report")).
Proof.
  assert (Hunused : ~ used_by_importable one_item_session (user titled_report) "report").
  { intros (r & Hr & _ & Himp & _). apply list_elem_of_In in Hr. simpl in Hr.
    destruct Hr as [<- | []]. discriminate Himp. }
  destruct (slug_kept one_item_session 0 titled_report "report")
    as (Himportable & Hpublish & Hnon & Hunpublish & Hshare & _).
  - reflexivity.
  - reflexivity.
  - discriminate.
  - split; [apply (Himportable true Hunused)|].
    split; [apply (Hpublish true (or_intror Hunused))|].
    split; [apply (Hnon true)|]. split; [apply (Hunpublish true)|].
    apply (Hshare (Some 2) true).
Defined.

(** C6 as the specification states it fails: [make_importable] on a
    resource that has the slug [report], in a session where an importable
    resource of the same owner has this slug too, replaces the slug by
    [report-1]. *)
Lemma make_importable_changes_slug :
  exists s',
    slug_of clash_session 1 = Some (Some "report") /\
    make_importable 1 true clash_session = Done 1 s' /\
    slug_of s' 1 = Some (Some "report-1").
Proof. eexists. repeat split. Qed.

(** C8.  [unshare_with] with the anonymous identity, [None], on an item
    that has no share association for [None]: the call does not fail.
    [get_share_assocs] leaves the user filter out, so the call returns the
    first association of the item, the one of user 2, and deletes it. *)
Theorem unshare_with_anonymous_removes :
  (forall a, a ∈ stored_shares shared_session 0 -> assoc_user a <> None) /\
  unshare_with 0 None true shared_session
  = Done (mkShareAssoc 0 (Some 2))
      (let item := set_shares [] private_item in mkSession [item] [item] 1).
Proof.
  split; [|reflexivity].
  intros a Ha. apply list_elem_of_In in Ha. simpl in Ha.
  destruct Ha as [<- | []]. discriminate.
Qed.

(** ** Valid slugs *)

Lemma append_empty_r (w : string) : (w ++ EmptyString)%string = w.
Proof.
  induction w as [|c w IH]; [reflexivity|]. now rewrite append_cons, IH.
Qed.

Lemma span_spec (p : ascii -> bool) (s : string) :
  forall run rest, PyStr.span p s = (run, rest) ->
    s = (run ++ rest)%string /\ PyStr.all_chars p run = true /\
    match rest with
    | EmptyString => True
    | String c _ => p c = false
    end.
Proof.
  induction s as [|c s IH]; intros run rest; simpl.
  - intros [= <- <-]. now repeat split.
  - destruct (p c) eqn:Hc.
    + destruct (PyStr.span p s) as [run' rest'].
      intros [= <- <-]. destruct (IH _ _ eq_refl) as (-> & Hall & Hrest).
      rewrite append_cons. simpl. rewrite Hc. now repeat split.
    + intros [= <- <-]. now repeat split.
Qed.

Lemma span_all (p : ascii -> bool) (w rest : string) :
  PyStr.all_chars p w = true ->
  match rest with
  | EmptyString => True
  | String c _ => p c = false
  end ->
  PyStr.span p (w ++ rest) = (w, rest).
Proof.
  induction w as [|c w IH]; intros Hall Hrest.
  - destruct rest as [|c rest]; [reflexivity|]. simpl. now rewrite Hrest.
  - simpl in Hall. apply andb_prop in Hall as [Hc Hall].
    rewrite append_cons. simpl. now rewrite Hc, (IH Hall Hrest).
Qed.

(** What [is_valid_slug] accepts: the non-empty words over lowercase
    letters, digits and hyphens, and the same words followed by one
    newline. *)
Lemma is_valid_slug_spec (slug : string) :
  is_valid_slug slug = true <->
  exists w, w <> EmptyString /\ PyStr.all_chars PyStr.slug_char w = true /\
            (slug = w \/ slug = (w ++ String PyStr.LF EmptyString)%string).
Proof.
  unfold is_valid_slug. split.
  - destruct (PyStr.span PyStr.slug_char slug) as [run rest] eqn:Hspan.
    apply span_spec in Hspan as (-> & Hall & _).
    intros H. apply andb_prop in H as [Hrun Hrest].
    exists run. split; [now destruct run|]. split; [exact Hall|].
    destruct rest as [|c [|]]; simpl in Hrest; try discriminate Hrest.
    + left. apply append_empty_r.
    + right. apply Ascii.eqb_eq in Hrest. now subst c.
  - intros (w & Hne & Hall & [-> | ->]).
    + rewrite <- (append_empty_r w) at 1.
      rewrite (span_all _ w EmptyString Hall I). now destruct w.
    + rewrite (span_all _ w (String PyStr.LF EmptyString) Hall eq_refl). now destruct w.
Qed.

(** C9.  [is_valid_slug] accepts [my-item-1] and rejects [My Item] and the
    empty string, and it accepts the two-character string made of [a] and
    a newline, which has a character outside [[a-z0-9-]]: the [$] of the
    pattern matches before a final newline. *)
Theorem is_valid_slug_trailing_newline :
  is_valid_slug "my-item-1" = true /\
  is_valid_slug "My Item" = false /\
  is_valid_slug EmptyString = false /\
  PyStr.slug_char PyStr.LF = false /\
  is_valid_slug (String "a" (String PyStr.LF EmptyString)) = true.
Proof. repeat split. Qed.


(** * Further properties of the manager *)

(** ** Normalised and generated slugs *)

Lemma all_chars_impl (p q : ascii -> bool) (s : string) :
  (forall c, p c = true -> q c = true) ->
  PyStr.all_chars p s = true -> PyStr.all_chars q s = true.
Proof.
  intros Hpq. induction s as [|c s IH]; simpl; [reflexivity|].
  intros H. apply andb_prop in H as [Hc Hs]. now rewrite (Hpq c Hc), IH.
Qed.

Lemma all_chars_app (p : ascii -> bool) (s1 s2 : string) :
  PyStr.all_chars p (s1 ++ s2) = PyStr.all_chars p s1 && PyStr.all_chars p s2.
Proof.
  induction s1 as [|c s1 IH]; [reflexivity|].
  rewrite append_cons. simpl. now rewrite IH, andb_assoc.
Qed.

Lemma all_chars_sub_spaces (p : ascii -> bool) (s : string) :
  p "-"%char = true ->
  PyStr.all_chars p s = true ->
  forall in_run, PyStr.all_chars p (PyStr.sub_spaces in_run s) = true.
Proof.
  intros Hhyphen. induction s as [|c s IH]; simpl; [reflexivity|].
  intros H in_run. apply andb_prop in H as [Hc Hs].
  destruct (PyStr.is_space c), in_run; simpl; rewrite ?Hhyphen, ?Hc; now apply IH.
Qed.

Lemma all_chars_delete_others (p : ascii -> bool) (s : string) :
  PyStr.all_chars p s = true ->
  PyStr.all_chars (λ c, PyStr.keep_char c && p c) (PyStr.delete_others s) = true.
Proof.
  induction s as [|c s IH]; simpl; [reflexivity|].
  intros H. apply andb_prop in H as [Hc Hs].
  destruct (PyStr.keep_char c) eqn:Hk; simpl; [rewrite Hk, Hc; simpl|]; now apply IH.
Qed.

Lemma all_chars_drop_last (p : ascii -> bool) (s : string) :
  PyStr.all_chars p s = true -> PyStr.all_chars p (PyStr.drop_last s) = true.
Proof.
  induction s as [|c s IH]; [reflexivity|].
  intros H. simpl in H. apply andb_prop in H as [Hc Hs].
  destruct s as [|d s]; [reflexivity|].
  change (p c && PyStr.all_chars p (PyStr.drop_last (String d s)) = true).
  now rewrite Hc, IH.
Qed.

Lemma all_chars_true (s : string) : PyStr.all_chars (λ _, true) s = true.
Proof. induction s as [|c s IH]; simpl; [reflexivity|exact IH]. Qed.

Lemma lower_char_not_upper (c : ascii) : PyStr.is_upper (PyStr.lower_char c) = false.
Proof. destruct c as [[] [] [] [] [] [] [] []]; reflexivity. Qed.

Lemma lower_not_upper (s : string) :
  PyStr.all_chars (λ c, negb (PyStr.is_upper c)) (PyStr.lower s) = true.
Proof.
  induction s as [|c s IH]; simpl; [reflexivity|].
  now rewrite lower_char_not_upper, IH.
Qed.

Lemma keep_not_upper_slug_char (c : ascii) :
  PyStr.keep_char c && negb (PyStr.is_upper c) = true -> PyStr.slug_char c = true.
Proof.
  unfold PyStr.keep_char, PyStr.slug_char.
  destruct (PyStr.is_lower c), (PyStr.is_upper c), (PyStr.is_digit c),
    (PyStr.is_hyphen c); simpl; congruence.
Qed.

(** [_slugify] with any test that holds of the hyphen: what holds of every
    character of the text holds of every character of the result, which
    moreover lies in the class the second substitution keeps. *)
Lemma _slugify_chars (p : ascii -> bool) (s : string) :
  p "-"%char = true ->
  PyStr.all_chars p s = true ->
  PyStr.all_chars (λ c, PyStr.keep_char c && p c) (_slugify s) = true.
Proof.
  intros Hhyphen Hs. unfold _slugify.
  pose proof (all_chars_delete_others p _ (all_chars_sub_spaces p s Hhyphen Hs false)) as H.
  destruct (PyStr.endswith_hyphen _); [now apply all_chars_drop_last | exact H].
Qed.

(** X1.  Whatever the text, the result of [_slugify] consists of letters,
    digits and hyphens only: no white space and no other character is
    left. *)
Theorem _slugify_keeps_class (start_with : string) :
  PyStr.all_chars PyStr.keep_char (_slugify start_with) = true.
Proof.
  apply (all_chars_impl (λ c, PyStr.keep_char c && true)).
  - intros c H. now apply andb_prop in H as [H _].
  - apply (_slugify_chars (λ _, true)); [reflexivity | apply all_chars_true].
Qed.

(** A non-empty word over [[a-z0-9-]] is a valid slug. *)
Lemma slug_chars_valid (w : string) :
  PyStr.all_chars PyStr.slug_char w = true -> w <> EmptyString ->
  is_valid_slug w = true.
Proof.
  intros Hall Hne. apply is_valid_slug_spec. exists w.
  split; [exact Hne|]. split; [exact Hall|]. now left.
Qed.

(** The lower-cased and normalised text has no uppercase letter left. *)
Lemma default_base_chars (text : string) :
  PyStr.all_chars PyStr.slug_char (_slugify (PyStr.lower text)) = true.
Proof.
  apply (all_chars_impl (λ c, PyStr.keep_char c && negb (PyStr.is_upper c)));
    [apply keep_not_upper_slug_char|].
  apply _slugify_chars; [reflexivity | apply lower_not_upper].
Qed.

(** X2.  The base [get_unique_slug] derives from a title or name (the
    text lower-cased, then normalised) consists of lowercase letters,
    digits and hyphens only, so it passes [is_valid_slug] whenever it is
    not empty. *)
Theorem default_base_valid (text : string) :
  PyStr.all_chars PyStr.slug_char (_slugify (PyStr.lower text)) = true /\
  (_slugify (PyStr.lower text) <> EmptyString ->
   is_valid_slug (_slugify (PyStr.lower text)) = true).
Proof.
  pose proof (default_base_chars text) as H.
  split; [exact H | now apply slug_chars_valid].
Qed.

Lemma default_base_valid_witness :
  is_valid_slug (_slugify (PyStr.lower "Quarterly Report")) = true.
Proof.
  apply (default_base_valid "Quarterly Report"). discriminate.
Defined.

Lemma string_of_uint_digits (d : Decimal.uint) :
  PyStr.all_chars PyStr.is_digit (NilEmpty.string_of_uint d) = true.
Proof. induction d; simpl; [reflexivity | exact IHd ..]. Qed.

Lemma format_slug_chars (slug_base : string) (k : nat) :
  PyStr.all_chars PyStr.slug_char slug_base = true ->
  PyStr.all_chars PyStr.slug_char (PyStr.format_slug slug_base k) = true.
Proof.
  intros Hbase. unfold PyStr.format_slug, PyStr.format_int.
  rewrite all_chars_app, Hbase, append_cons. simpl.
  apply (all_chars_impl PyStr.is_digit); [|apply string_of_uint_digits].
  intros c Hc. unfold PyStr.slug_char. now rewrite Hc, orb_true_r.
Qed.

Lemma candidate_chars (slug_base : string) (k : nat) :
  PyStr.all_chars PyStr.slug_char slug_base = true ->
  PyStr.all_chars PyStr.slug_char (candidate slug_base k) = true.
Proof. destruct k; [trivial | apply format_slug_chars]. Qed.

(** X3.  For an item that has no slug yet, [get_unique_slug] returns a
    word over [[a-z0-9-]]; the word is a valid slug unless it is empty,
    and it is not empty when the normalised title or name is not. *)
Theorem get_unique_slug_valid (s : Session) (i : nat) (item : Item) :
  objs s !! i = Some item ->
  slug item = None \/ slug item = Some EmptyString ->
  exists new_slug,
    get_unique_slug i s = Done new_slug s /\
    PyStr.all_chars PyStr.slug_char new_slug = true /\
    (new_slug <> EmptyString -> is_valid_slug new_slug = true) /\
    (_slugify (_default_slug_base item) <> EmptyString -> new_slug <> EmptyString).
Proof.
  intros E Hnone.
  assert (Hbase : slug_base_of item = _slugify (_default_slug_base item)).
  { unfold slug_base_of. now destruct Hnone as [-> | ->]. }
  destruct (get_unique_slug_result s i item E) as (k & Hrun & _).
  rewrite Hbase in Hrun.
  assert (Hchars : PyStr.all_chars PyStr.slug_char
                     (candidate (_slugify (_default_slug_base item)) k) = true).
  { apply candidate_chars. unfold _default_slug_base.
    destruct (title item); apply default_base_chars. }
  eexists. split; [exact Hrun|]. split; [exact Hchars|].
  split; [now apply slug_chars_valid | now apply candidate_nonempty].
Qed.

Lemma get_unique_slug_valid_witness :
  exists new_slug,
    get_unique_slug 0 quarterly_session = Done new_slug quarterly_session /\
    is_valid_slug new_slug = true.
Proof.
  destruct (get_unique_slug_valid quarterly_session 0 quarterly eq_refl (or_introl eq_refl))
    as (new_slug & Hrun & _ & Hvalid & Hne).
  exists new_slug. split; [exact Hrun|]. apply Hvalid, Hne. discriminate.
Defined.

(** ** Access of owners and administrators *)

(** X4.  Whoever [is_owner] accepts has access, an administrator has
    access to every item, the owner of an item has access to it, and an
    importable item is accessible to every user, the anonymous one
    included. *)
Theorem owner_has_access `{UserManager} (item : Item) (u : User) :
  (is_owner item u = true -> is_accessible item u = true) /\
  (is_admin u = true -> is_accessible item u = true) /\
  (user item = u -> is_accessible item u = true) /\
  (importable item = true -> forall v, is_accessible item v = true).
Proof.
  unfold is_accessible, is_owner. repeat split.
  - intros ->. now destruct (importable item).
  - intros ->. now destruct (importable item).
  - intros Hu. rewrite (bool_decide_eq_true_2 _ Hu).
    now destruct (importable item), (is_admin u).
  - now intros ->.
Qed.

Lemma owner_has_access_witness :
  @is_accessible example_users private_item (Some 0) = true /\
  @is_accessible example_users private_item (Some 1) = true.
Proof.
  pose proof (@owner_has_access example_users private_item (Some 0)) as (_ & Hadmin & _).
  pose proof (@owner_has_access example_users private_item (Some 1)) as (_ & _ & Hown & _).
  split; [apply Hadmin | apply Hown]; reflexivity.
Defined.

(** ** What a transition changes *)

Lemma set_obj_same (s : Session) (i : nat) (item : Item) :
  objs s !! i = Some item -> set_obj i item s = s.
Proof.
  intros E. unfold set_obj. rewrite (list_insert_id _ _ _ E). now destruct s.
Qed.

Lemma run_call_effect (s : Session) (i : nat) (item : Item) (c : call) (new_slug : string) :
  objs s !! i = Some item ->
  get_unique_slug i s = Done new_slug s ->
  run_call i c s
  = Done i (commit (flushes c) (set_obj i (after_call new_slug c item) s)).
Proof.
  intros E Hslug. destruct c as [flush|flush|flush|flush]; simpl.
  - now apply publish_effect.
  - now apply unpublish_effect.
  - now apply make_importable_effect.
  - now apply make_non_importable_effect.
Qed.

(** X5.  A transition on item [i] returns [i], leaves every other object
    as it is, creates no object and no share key; when it is deferred the
    table is untouched, and when it flushes the table is the objects. *)
Theorem transition_frame (s : Session) (i : nat) (item : Item) (c : call) :
  objs s !! i = Some item ->
  exists s',
    run_call i c s = Done i s' /\
    (forall j, j <> i -> objs s' !! j = objs s !! j) /\
    length (objs s') = length (objs s) /\
    next_assoc s' = next_assoc s /\
    rows s' = if flushes c then objs s' else rows s.
Proof.
  intros E. destruct (get_unique_slug_done s i item E) as [new_slug Hslug].
  eexists. split; [apply (run_call_effect _ _ _ c _ E Hslug)|].
  rewrite objs_commit, rows_commit. simpl.
  split; [|split; [apply length_insert|split]].
  - intros j Hj. now apply list_lookup_insert_ne.
  - now destruct (flushes c).
  - reflexivity.
Qed.

Lemma transition_frame_witness :
  exists s',
    run_call 2 (Publish false) report_session = Done 2 s' /\
    objs s' !! 0 = Some report_0 /\ rows s' = rows report_session.
Proof.
  destruct (transition_frame report_session 2 report_new (Publish false) eq_refl)
    as (s' & Hrun & Hother & _ & _ & Hrows).
  exists s'. split; [exact Hrun|]. split; [|exact Hrows].
  rewrite Hother; [reflexivity | discriminate].
Defined.

(** X6.  After [publish] the item is importable and published; its
    owner, title, name and shares are the ones it had, and so is its slug
    when it was importable before.  After a flushing call the stored row is
    the object. *)
Theorem publish_sets_both_flags (s : Session) (i : nat) (item : Item) (flush : bool) :
  objs s !! i = Some item ->
  exists s' item',
    publish i flush s = Done i s' /\
    objs s' !! i = Some item' /\
    importable item' = true /\ published item' = true /\
    user item' = user item /\ title item' = title item /\
    name item' = name item /\ users_shared_with item' = users_shared_with item /\
    (importable item = true -> slug item' = slug item) /\
    (flush = true -> rows s' !! i = Some item').
Proof.
  intros E. destruct (get_unique_slug_done s i item E) as [new_slug Hslug].
  pose proof (objs_set_obj s i item (made_published new_slug item) E) as Hi.
  assert (Hitem : importable (made_published new_slug item) = true /\
                  published (made_published new_slug item) = true /\
                  user (made_published new_slug item) = user item /\
                  title (made_published new_slug item) = title item /\
                  name (made_published new_slug item) = name item /\
                  users_shared_with (made_published new_slug item)
                  = users_shared_with item /\
                  (importable item = true ->
                   slug (made_published new_slug item) = slug item)).
  { unfold made_published.
    destruct (importable item) eqn:Himp; simpl; repeat split; congruence. }
  destruct Hitem as (? & ? & ? & ? & ? & ? & ?).
  exists (commit flush (set_obj i (made_published new_slug item) s)),
    (made_published new_slug item).
  split; [apply (publish_effect _ _ _ _ flush E Hslug)|].
  rewrite objs_commit, rows_commit. repeat (split; [assumption|]).
  now intros ->.
Qed.

Lemma publish_sets_both_flags_witness :
  exists s' item',
    publish 2 true report_session = Done 2 s' /\
    rows s' !! 2 = Some item' /\
    importable item' = true /\ published item' = true.
Proof.
  destruct (publish_sets_both_flags report_session 2 report_new true eq_refl)
    as (s' & item' & Hrun & _ & Himp & Hpub & _ & _ & _ & _ & _ & Hrow).
  exists s', item'. split; [exact Hrun|]. split; [now apply Hrow|]. now split.
Defined.

(** X7.  After [make_non_importable] the item is neither importable nor
    published, whatever it was before, and nothing else of it has changed:
    the slug stays. *)
Theorem make_non_importable_clears_both_flags
    (s : Session) (i : nat) (item : Item) (flush : bool) :
  objs s !! i = Some item ->
  exists s',
    make_non_importable i flush s = Done i s' /\
    objs s' !! i
    = Some (mkItem (user item) (slug item) false false
              (title item) (name item) (users_shared_with item)).
Proof.
  intros E. eexists. split; [apply (make_non_importable_effect _ _ _ flush E)|].
  rewrite objs_commit, (objs_set_obj _ _ _ _ E).
  unfold made_non_importable.
  destruct (published item) eqn:Hp; simpl; rewrite ?Hp; reflexivity.
Qed.

Lemma make_non_importable_clears_both_flags_witness :
  exists s',
    make_non_importable 0 true report_session = Done 0 s' /\
    objs s' !! 0
    = Some (mkItem (Some 1) (Some "report") false false None "Report" []).
Proof.
  apply (make_non_importable_clears_both_flags report_session 0 report_0 true).
  reflexivity.
Defined.

(** X8.  [publish] is idempotent: a second [publish] right after the first
    returns normally and changes no object (it only flushes, when asked
    to). *)
Theorem publish_twice (s : Session) (i : nat) (item : Item) (flush1 flush2 : bool) :
  objs s !! i = Some item ->
  exists s1,
    publish i flush1 s = Done i s1 /\
    publish i flush2 s1 = Done i (commit flush2 s1).
Proof.
  intros E. destruct (get_unique_slug_done s i item E) as [new_slug Hslug].
  set (item1 := made_published new_slug item).
  set (s1 := commit flush1 (set_obj i item1 s)).
  assert (E1 : objs s1 !! i = Some item1).
  { unfold s1. rewrite objs_commit. now apply (objs_set_obj _ _ item). }
  exists s1. split; [apply (publish_effect _ _ _ _ flush1 E Hslug)|].
  destruct (get_unique_slug_done s1 i item1 E1) as [slug1 Hslug1].
  rewrite (publish_effect _ _ _ _ flush2 E1 Hslug1).
  assert (Hsame : made_published slug1 item1 = item1).
  { unfold item1, made_published.
    destruct (importable item) eqn:Himp; simpl; rewrite ?Himp; reflexivity. }
  now rewrite Hsame, (set_obj_same _ _ _ E1).
Qed.

Lemma publish_twice_witness :
  exists s1,
    publish 2 true report_session = Done 2 s1 /\
    publish 2 true s1 = Done 2 (commit true s1).
Proof.
  apply (publish_twice report_session 2 report_new true true). reflexivity.
Defined.

(** ** Uniqueness of the slugs of importable items *)

(** X9.  [make_importable] on an item that is importable already and is
    stored with a non-empty slug [c] finds [c] taken by the item's own row:
    the item gets a suffixed slug [c-k], different from [c]. *)
Theorem make_importable_renames (s : Session) (i : nat) (item : Item) (c : string) (flush : bool) :
  objs s !! i = Some item ->
  rows s !! i = Some item ->
  importable item = true ->
  slug item = Some c ->
  c <> EmptyString ->
  exists k s',
    make_importable i flush s = Done i s' /\
    slug_of s' i = Some (Some (PyStr.format_slug c (S k))) /\
    PyStr.format_slug c (S k) <> c.
Proof.
  intros E Erow Himp Hc Hne.
  destruct (make_importable_slug s i item c flush E Hc Hne) as (k & s' & Hrun & Hslug & Hk).
  destruct k as [|k].
  - exfalso. apply (proj1 Hk eq_refl). exists item.
    split; [now apply list_elem_of_lookup_2 in Erow|]. now repeat split.
  - exists k, s'. split; [exact Hrun|]. split; [exact Hslug|].
    apply format_slug_not_base.
Qed.

Lemma make_importable_renames_witness :
  exists k s',
    make_importable 0 true report_session = Done 0 s' /\
    slug_of s' 0 = Some (Some (PyStr.format_slug "report" (S k))) /\
    PyStr.format_slug "report" (S k) <> "report".
Proof.
  apply (make_importable_renames report_session 0 report_0 "report" true);
    [reflexivity | reflexivity | reflexivity | reflexivity | discriminate].
Defined.

(** What the item after a call has in common with the item before: the
    owner, and, when it is importable, a slug that is free among the stored
    importable items of the owner or the slug it had as an importable
    item. *)
Lemma after_call_slug (s : Session) (item : Item) (c : call) (new_slug : string) :
  ~ used_by_importable s (user item) new_slug ->
  user (after_call new_slug c item) = user item /\
  forall d,
    importable (after_call new_slug c item) = true ->
    slug (after_call new_slug c item) = Some d ->
    ~ used_by_importable s (user item) d \/
    (importable item = true /\ slug item = Some d).
Proof.
  intros Hfree.
  destruct c as [flush|flush|flush|flush]; simpl;
    unfold made_published, made_importable, made_non_importable.
  - destruct (importable item) eqn:Himp; simpl; (split; [reflexivity|]); intros d.
    + rewrite Himp. intros _ Hd. now right.
    + intros _ [= <-]. now left.
  - simpl. split; [reflexivity|]. intros d Himp Hd. now right.
  - simpl. split; [reflexivity|]. intros d _ [= <-]. now left.
  - split; [now destruct (published item)|]. intros d Himp. discriminate Himp.
Qed.

Lemma unique_after_update (s : Session) (i : nat) (item item' : Item) :
  in_sync s ->
  unique_importable_slugs (rows s) ->
  objs s !! i = Some item ->
  user item' = user item ->
  (forall d, importable item' = true -> slug item' = Some d ->
     ~ used_by_importable s (user item) d \/
     (importable item = true /\ slug item = Some d)) ->
  unique_importable_slugs (<[i := item']> (objs s)).
Proof.
  intros Hsync Huniq E Huser Hslug j k rj rk d Hjk Hj Hk Hu Hij Hik Hsj Hsk.
  unfold in_sync in Hsync.
  pose proof (lookup_lt_Some _ _ _ E) as Hlt.
  destruct (decide (j = i)) as [-> | Hji], (decide (k = i)) as [-> | Hki].
  - contradiction.
  - rewrite list_lookup_insert_eq in Hj by exact Hlt. injection Hj as <-.
    rewrite list_lookup_insert_ne in Hk by congruence.
    destruct (Hslug d Hij Hsj) as [Hfree | [Himp Hd]].
    + apply Hfree. exists rk. rewrite Hsync.
      split; [now apply list_elem_of_lookup_2 in Hk|]. repeat split; congruence.
    + apply (Huniq i k item rk d); rewrite ?Hsync; congruence.
  - rewrite list_lookup_insert_eq in Hk by exact Hlt. injection Hk as <-.
    rewrite list_lookup_insert_ne in Hj by congruence.
    destruct (Hslug d Hik Hsk) as [Hfree | [Himp Hd]].
    + apply Hfree. exists rj. rewrite Hsync.
      split; [now apply list_elem_of_lookup_2 in Hj|]. repeat split; congruence.
    + apply (Huniq j i rj item d); rewrite ?Hsync; congruence.
  - rewrite list_lookup_insert_ne in Hj by congruence.
    rewrite list_lookup_insert_ne in Hk by congruence.
    apply (Huniq j k rj rk d); rewrite ?Hsync; assumption.
Qed.

Lemma run_call_unique (s : Session) (i : nat) (item : Item) (c : call) :
  objs s !! i = Some item ->
  in_sync s ->
  unique_importable_slugs (rows s) ->
  flushes c = true ->
  exists s' item',
    run_call i c s = Done i s' /\ objs s' !! i = Some item' /\
    in_sync s' /\ unique_importable_slugs (rows s').
Proof.
  intros E Hsync Huniq Hflush.
  destruct (get_unique_slug_result s i item E) as (k & Hslug & Hfree & _).
  destruct (after_call_slug s item c _ Hfree) as [Huser Hcompat].
  eexists _, _. split; [apply (run_call_effect _ _ _ c _ E Hslug)|].
  rewrite Hflush. split; [apply (objs_set_obj _ _ _ _ E)|].
  split; [reflexivity|]. simpl.
  now apply (unique_after_update s i item).
Qed.

(** X10.  In a session without pending changes whose table has no two
    importable items of one owner with the same slug, every sequence of
    flushing calls of [publish], [unpublish], [make_importable] and
    [make_non_importable] on an item runs to the end and leaves such a
    session and such a table. *)
Theorem unique_slugs_preserved (i : nat) (cs : list call) :
  forall (s : Session) (item : Item),
    objs s !! i = Some item ->
    in_sync s ->
    unique_importable_slugs (rows s) ->
    Forall (λ c, flushes c = true) cs ->
    exists s',
      run_calls i cs s = Done tt s' /\ in_sync s' /\
      unique_importable_slugs (rows s').
Proof.
  induction cs as [|c cs IH]; intros s item E Hsync Huniq Hflush.
  - exists s. now repeat split.
  - apply Forall_cons in Hflush as [Hc Hcs].
    destruct (run_call_unique s i item c E Hsync Huniq Hc)
      as (s1 & item1 & Hrun & E1 & Hsync1 & Huniq1).
    destruct (IH s1 item1 E1 Hsync1 Huniq1 Hcs) as (s' & Hrest & ?).
    exists s'. split; [|assumption].
    simpl run_calls. now rewrite (bind_done _ _ _ _ _ Hrun).
Qed.

Lemma unique_slugs_preserved_witness :
  exists s',
    run_calls 2 [Publish true; MakeNonImportable true; MakeImportable true]
      report_session = Done tt s' /\
    in_sync s' /\ unique_importable_slugs (rows s').
Proof.
  apply (unique_slugs_preserved 2 _ report_session report_new).
  - reflexivity.
  - reflexivity.
  - intros j k rj rk c Hjk Hj Hk _ Hij Hik Hsj Hsk.
    destruct j as [|[|[|j]]], k as [|[|[|k]]]; try discriminate Hj;
      try discriminate Hk; try contradiction;
      injection Hj as <-; injection Hk as <-;
      try discriminate Hij; try discriminate Hik;
      injection Hsj as <-; discriminate Hsk.
  - repeat constructor.
Defined.

(** ** A slug that was set *)

(** X11.  When [set_slug] with a valid slug that no stored item of the
    user has is called by the owner of the item and flushes, the item has
    the slug, the table is up to date, and from then on every [set_slug]
    with this slug and this user raises [Conflict], on whatever item, and
    leaves the session as it is. *)
Theorem set_slug_then_conflict (s : Session) (i : nat) (item : Item) (c : string) :
  objs s !! i = Some item ->
  is_valid_slug c = true ->
  (forall r, r ∈ rows s -> user r = user item -> slug r <> Some c) ->
  exists s1,
    set_slug i c (user item) true s = Done i s1 /\
    slug_of s1 i = Some (Some c) /\
    in_sync s1 /\
    forall j flush, set_slug j c (user item) flush s1 = Raise (Conflict c) s1.
Proof.
  intros E Hvalid Hfree.
  exists (flushed (set_obj i (set_slug_attr (Some c) item) s)).
  pose proof (objs_set_obj s i item (set_slug_attr (Some c) item) E) as Hi.
  split; [|split; [|split]].
  - destruct (set_slug_cases s i c (user item) true)
      as [(Hv & _) | [(_ & (r & Hr & Hu & Hs) & _) | (_ & _ & Hrun)]].
    + congruence.
    + now apply Hfree in Hs.
    + rewrite Hrun, (bind_done _ _ _ _ _ (modify_item_done _ _ _ _ E)).
      now rewrite (bind_done _ _ _ _ _ (when_flush true _)).
  - unfold slug_of, flushed. cbn [objs]. now rewrite Hi.
  - reflexivity.
  - intros j flush.
    destruct (set_slug_cases (flushed (set_obj i (set_slug_attr (Some c) item) s))
                j c (user item) flush)
      as [(Hv & _) | [(_ & _ & Hrun) | (_ & Hnone & _)]].
    + congruence.
    + exact Hrun.
    + exfalso. apply Hnone. exists (set_slug_attr (Some c) item).
      split; [now apply list_elem_of_lookup_2 in Hi | now split].
Qed.

Lemma set_slug_then_conflict_witness :
  exists s1,
    set_slug 1 "draft" (Some 1) true two_items_session = Done 1 s1 /\
    slug_of s1 1 = Some (Some "draft") /\
    in_sync s1 /\
    forall j flush, set_slug j "draft" (Some 1) flush s1 = Raise (Conflict "draft") s1.
Proof.
  apply (set_slug_then_conflict two_items_session 1 untitled "draft");
    [reflexivity | reflexivity |].
  intros r Hr _. apply list_elem_of_In in Hr. simpl in Hr.
  destruct Hr as [<- | [<- | []]]; discriminate.
Defined.

(** ** Sharing *)

Lemma get_share_assocs_done (s : Session) (i : nat) (u : User) :
  exists found, get_share_assocs i u s = Done found s.
Proof. eexists. reflexivity. Qed.

Lemma filter_all {A : Type} (P : A -> Prop) `{forall x, Decision (P x)} (l : list A) :
  (forall x, x ∈ l -> P x) -> filter P l = l.
Proof.
  induction l as [|x l IH]; intros Hl; [reflexivity|].
  rewrite filter_cons_True; [|apply Hl, list_elem_of_here].
  f_equal. apply IH. intros y Hy. apply Hl. now apply list_elem_of_further.
Qed.

(** A new association for an item without a slug: the item gets the
    association and the slug [get_unique_slug] returns, and the session is
    flushed by [create_unique_slug], whatever [flush] is. *)
Lemma share_with_new_unslugged (s : Session) (i : nat) (item : Item) (u : User)
    (flush : bool) (new_slug : string) :
  let a := mkShareAssoc (next_assoc s) u in
  objs s !! i = Some item ->
  slug item = None \/ slug item = Some EmptyString ->
  get_share_assocs i u s = Done [] s ->
  get_unique_slug i (set_obj i (with_share a item) (next_key s))
  = Done new_slug (set_obj i (with_share a item) (next_key s)) ->
  share_with i u flush s
  = Done a (flushed (set_obj i (set_slug_attr (Some new_slug) (with_share a item))
                       (next_key s))).
Proof.
  intros a E Hnone Hq Hslug. unfold share_with. rewrite (bind_done _ _ _ _ _ Hq).
  unfold _create_user_share_assoc. fold (next_key s). fold a.
  assert (E' : objs (next_key s) !! i = Some item) by exact E.
  pose proof (objs_set_obj _ _ _ (with_share a item) E') as Ea.
  rewrite (bind_done _ _ _ _ _ (modify_item_done _ _ _ _ E')).
  fold (with_share a item).
  rewrite (bind_done _ _ _ _ _ (get_item_done _ _ _ Ea)).
  rewrite bool_decide_eq_true_2 by (simpl; exact Hnone).
  rewrite (bind_done _ _ _ _ _ (create_unique_slug_effect _ _ _ _ true Ea Hslug)).
  simpl commit. rewrite set_obj_twice.
  rewrite (bind_done _ _ _ _ _ (when_flush _ _)).
  now destruct flush.
Qed.

(** X12.  [share_with] for an item without a slug and without a stored
    association for the user creates the association, gives the item the
    slug [get_unique_slug] finds, free among the stored importable items of
    the owner, and flushes even when the caller asked to defer.  For an item
    with a slug the deferred call leaves the table untouched. *)
Theorem share_with_ensures_slug (s : Session) (i : nat) (item : Item) (u : User) :
  objs s !! i = Some item ->
  get_share_assocs i u s = Done [] s ->
  let a := mkShareAssoc (next_assoc s) u in
  (slug item = None \/ slug item = Some EmptyString ->
   forall flush, exists s' new_slug,
     share_with i u flush s = Done a s' /\
     objs s' !! i
     = Some (set_slug_attr (Some new_slug) (with_share a item)) /\
     ~ used_by_importable s (user item) new_slug /\
     in_sync s') /\
  (forall c, slug item = Some c -> c <> EmptyString ->
   exists s',
     share_with i u false s = Done a s' /\
     objs s' !! i = Some (with_share a item) /\
     rows s' = rows s).
Proof.
  intros E Hq a. split.
  - intros Hnone flush.
    assert (E' : objs (next_key s) !! i = Some item) by exact E.
    pose proof (objs_set_obj _ _ _ (with_share a item) E') as Ea.
    destruct (get_unique_slug_result _ i _ Ea) as (k & Hslug & Hfree & _).
    eexists _, _.
    split; [apply (share_with_new_unslugged s i item u flush _ E Hnone Hq Hslug)|].
    split; [apply (objs_set_obj _ _ _ _ E')|]. split; [exact Hfree | reflexivity].
  - intros c Hc Hne. eexists.
    split; [apply (share_with_new _ _ _ _ c false E Hc Hne Hq)|].
    split; [apply (objs_set_obj (next_key s) _ _ _ E) | reflexivity].
Qed.

Lemma share_with_ensures_slug_witness :
  exists s' new_slug,
    share_with 0 (Some 2) false quarterly_session = Done (mkShareAssoc 0 (Some 2)) s' /\
    objs s' !! 0
    = Some (set_slug_attr (Some new_slug) (with_share (mkShareAssoc 0 (Some 2)) quarterly)) /\
    ~ used_by_importable quarterly_session (Some 1) new_slug /\
    in_sync s'.
Proof.
  destruct (share_with_ensures_slug quarterly_session 0 quarterly (Some 2) eq_refl eq_refl)
    as [Hnew _].
  apply (Hnew (or_introl eq_refl) false).
Defined.

(** A new association created by a flushing [share_with]: the session is
    flushed and the item has the association after the ones it had. *)
Lemma share_with_new_flushed (s : Session) (i : nat) (item : Item) (u : User) :
  objs s !! i = Some item ->
  get_share_assocs i u s = Done [] s ->
  exists item1,
    share_with i u true s
    = Done (mkShareAssoc (next_assoc s) u) (flushed (set_obj i item1 (next_key s))) /\
    users_shared_with item1
    = (users_shared_with item ++ [mkShareAssoc (next_assoc s) u])%list.
Proof.
  intros E Hq.
  assert (E' : objs (next_key s) !! i = Some item) by exact E.
  set (a := mkShareAssoc (next_assoc s) u).
  pose proof (objs_set_obj _ _ _ (with_share a item) E') as Ea.
  destruct (get_unique_slug_done _ i _ Ea) as [new_slug Hnew].
  destruct (slug item) as [[|ch c]|] eqn:Hslug.
  - exists (set_slug_attr (Some new_slug) (with_share a item)). split; [|reflexivity].
    apply (share_with_new_unslugged s i item u true new_slug E (or_intror Hslug) Hq Hnew).
  - exists (with_share a item). split; [|reflexivity].
    apply (share_with_new s i item u (String ch c) true E Hslug); [discriminate | exact Hq].
  - exists (set_slug_attr (Some new_slug) (with_share a item)). split; [|reflexivity].
    apply (share_with_new_unslugged s i item u true new_slug E (or_introl Hslug) Hq Hnew).
Qed.

(** The query for the associations of [u], once the table has the new
    association after those of an item that had none for [u]. *)
Lemma get_share_assocs_after_new (s s1 : Session) (i : nat) (item item1 : Item)
    (u : User) (a : ShareAssoc) :
  rows s !! i = Some item ->
  get_share_assocs i u s = Done [] s ->
  rows s1 !! i = Some item1 ->
  users_shared_with item1 = (users_shared_with item ++ [a])%list ->
  assoc_user a = u ->
  get_share_assocs i u s1 = Done [a] s1.
Proof.
  intros Er Hq Er1 Hshares Hu. unfold get_share_assocs in *.
  rewrite Er in Hq. rewrite Er1. simpl in *. rewrite Hshares.
  destruct u as [n|].
  - injection Hq as Hq. rewrite filter_app, Hq, filter_cons_True by exact Hu.
    reflexivity.
  - injection Hq as ->. reflexivity.
Qed.

(** X13.  [share_with] is idempotent when it flushes: on an item without
    pending changes a second call for the same user returns the
    association the first call returned and leaves the session as it is, so
    no second association is created. *)
Theorem share_with_twice (s : Session) (i : nat) (item : Item) (u : User) :
  objs s !! i = Some item ->
  rows s !! i = Some item ->
  exists a s1,
    share_with i u true s = Done a s1 /\
    share_with i u true s1 = Done a s1.
Proof.
  intros E Er. destruct (get_share_assocs_done s i u) as [[|a rest] Hq].
  - destruct (share_with_new_flushed s i item u E Hq) as (item1 & Hrun & Hshares).
    eexists _, _. split; [exact Hrun|].
    apply (share_with_existing _ _ _ _ [] true).
    apply (get_share_assocs_after_new s _ i item item1 u _ Er Hq);
      [apply (objs_set_obj (next_key s) _ _ _ E) | exact Hshares | reflexivity].
  - exists a, s. split; apply (share_with_existing _ _ _ _ rest true Hq).
Qed.

Lemma share_with_twice_witness :
  exists a s1,
    share_with 0 (Some 3) true shared_session = Done a s1 /\
    share_with 0 (Some 3) true s1 = Done a s1.
Proof.
  apply (share_with_twice shared_session 0 private_item (Some 3)); reflexivity.
Defined.

(** X14.  Sharing and unsharing undo each other: on an item without
    pending changes and without an association for the user, whose
    associations all have keys other than the next one, a flushing
    [share_with] followed by a flushing [unshare_with] for the same user
    returns the same association twice and leaves the item with the
    associations it had, in the objects and in the table. *)
Theorem share_then_unshare (s : Session) (i : nat) (item : Item) (u : User) :
  objs s !! i = Some item ->
  rows s !! i = Some item ->
  get_share_assocs i u s = Done [] s ->
  (forall b, b ∈ users_shared_with item -> assoc_id b <> next_assoc s) ->
  exists a s1 s2 item2,
    share_with i u true s = Done a s1 /\
    unshare_with i u true s1 = Done a s2 /\
    objs s2 !! i = Some item2 /\ rows s2 !! i = Some item2 /\
    users_shared_with item2 = users_shared_with item.
Proof.
  intros E Er Hq Hfresh.
  destruct (share_with_new_flushed s i item u E Hq) as (item1 & Hrun & Hshares).
  pose proof (objs_set_obj (next_key s) i item item1 E) as E1.
  set (a := mkShareAssoc (next_assoc s) u) in *.
  set (s1 := flushed (set_obj i item1 (next_key s))) in *.
  assert (Hq1 : get_share_assocs i u s1 = Done [a] s1).
  { apply (get_share_assocs_after_new s s1 i item item1 u a Er Hq);
      [exact E1 | exact Hshares | reflexivity]. }
  assert (E1' : objs s1 !! i = Some item1) by exact E1.
  pose proof (objs_set_obj s1 i item1 (without_share a item1) E1') as E2.
  exists a, s1, (commit true (set_obj i (without_share a item1) s1)),
    (without_share a item1).
  split; [exact Hrun|].
  split; [apply (unshare_with_found _ _ _ _ _ [] true E1' Hq1)|].
  split; [exact E2|]. split; [exact E2|].
  simpl. rewrite Hshares, filter_app, (filter_all _ _ Hfresh).
  rewrite filter_cons_False by (simpl; tauto). apply app_nil_r.
Qed.

Lemma share_then_unshare_witness :
  exists a s1 s2 item2,
    share_with 0 (Some 3) true shared_session = Done a s1 /\
    unshare_with 0 (Some 3) true s1 = Done a s2 /\
    objs s2 !! 0 = Some item2 /\ rows s2 !! 0 = Some item2 /\
    users_shared_with item2 = users_shared_with private_item.
Proof.
  apply (share_then_unshare shared_session 0 private_item (Some 3));
    [reflexivity | reflexivity | reflexivity |].
  intros b Hb. apply list_elem_of_In in Hb. simpl in Hb.
  destruct Hb as [<- | []]. discriminate.
Defined.

Lemma bind_raise {A B : Type} (m : M A) (k : A -> M B) (s s' : Session) (e : exn) :
  m s = Raise e s' -> (m ≫= k) s = Raise e s'.
Proof. intros E. unfold mbind, M_bind. now rewrite E. Qed.

(** X15.  [unshare_with] on a list of users never flushes: it either
    returns one association for each user or raises [IndexError] at the
    first user without a stored association, and in both cases the table
    and the other objects are the ones before the call. *)
Theorem unshare_with_list_never_flushes (i : nat) (us : list User) :
  forall (s : Session) (item : Item),
    objs s !! i = Some item ->
    exists s',
      ((exists found, unshare_with_list i us s = Done found s' /\
                      length found = length us) \/
       unshare_with_list i us s = Raise IndexError s') /\
      rows s' = rows s /\
      (forall j, j <> i -> objs s' !! j = objs s !! j).
Proof.
  unfold unshare_with_list.
  induction us as [|u us IH]; intros s item E.
  - exists s. split; [left; now exists []|]. now split.
  - simpl map_users.
    destruct (get_share_assocs_done s i u) as [[|a rest] Hq].
    + exists s. split; [right|now split].
      now rewrite (bind_raise _ _ _ _ _ (unshare_with_missing _ _ _ false Hq)).
    + pose proof (unshare_with_found s i item u a rest false E Hq) as Hrun.
      simpl commit in Hrun.
      pose proof (objs_set_obj s i item (without_share a item) E) as E1.
      destruct (IH _ _ E1) as (s' & Hrest & Hrows & Hobjs).
      exists s'. split; [|split].
      * rewrite (bind_done _ _ _ _ _ Hrun).
        destruct Hrest as [(found & Hfound & Hlen) | Hraise].
        -- left. exists (a :: found). rewrite (bind_done _ _ _ _ _ Hfound).
           split; [reflexivity | simpl; now rewrite Hlen].
        -- right. now rewrite (bind_raise _ _ _ _ _ Hraise).
      * exact Hrows.
      * intros j Hj. rewrite (Hobjs j Hj). simpl.
        now apply list_lookup_insert_ne.
Qed.

Lemma unshare_with_list_never_flushes_witness :
  exists s',
    ((exists found, unshare_with_list 0 [Some 2; Some 3] shared_session = Done found s' /\
                    length found = 2) \/
     unshare_with_list 0 [Some 2; Some 3] shared_session = Raise IndexError s') /\
    rows s' = rows shared_session /\
    (forall j, j <> 0 -> objs s' !! j = objs shared_session !! j).
Proof.
  apply (unshare_with_list_never_flushes 0 [Some 2; Some 3] shared_session private_item).
  reflexivity.
Defined.

(** ** The deserializer *)

(** X16.  [deserialize_published] returns the value it was given and
    leaves the item with [published] equal to it; it never flushes, it
    changes nothing when the flag has the value already, and an item that
    satisfied [published ⇒ importable] still does. *)
Theorem deserialize_published_sets (s : Session) (i : nat) (item : Item) (val : bool) :
  objs s !! i = Some item ->
  exists s' item',
    deserialize_published i val s = Done val s' /\
    objs s' !! i = Some item' /\
    published item' = val /\
    rows s' = rows s /\
    (published item = val -> s' = s) /\
    (published_importable item -> published_importable item').
Proof.
  intros E. unfold deserialize_published.
  rewrite (bind_done _ _ _ _ _ (get_item_done _ _ _ E)).
  destruct (Bool.eqb (published item) val) eqn:Heq.
  - apply Bool.eqb_prop in Heq. exists s, item. now repeat split.
  - apply Bool.eqb_false_iff in Heq.
    destruct (get_unique_slug_done s i item E) as [new_slug Hslug].
    destruct val.
    + pose proof (objs_set_obj s i item (made_published new_slug item) E) as E1.
      rewrite (bind_done _ _ _ _ _ (publish_effect _ _ _ _ false E Hslug)).
      simpl commit. rewrite (bind_done _ _ _ _ _ (get_item_done _ _ _ E1)).
      eexists _, _. split; [reflexivity|]. split; [exact E1|].
      split; [reflexivity|]. split; [reflexivity|]. split; [contradiction|].
      intros _. apply made_published_invariant.
    + pose proof (objs_set_obj s i item (setattr Published false item) E) as E1.
      rewrite (bind_done _ _ _ _ _ (unpublish_effect _ _ _ false E)).
      simpl commit. rewrite (bind_done _ _ _ _ _ (get_item_done _ _ _ E1)).
      eexists _, _. split; [reflexivity|]. split; [exact E1|].
      split; [reflexivity|]. split; [reflexivity|]. split; [contradiction|].
      intros _. apply unpublished_invariant.
Qed.

Lemma deserialize_published_sets_witness :
  exists s' item',
    deserialize_published 2 true report_session = Done true s' /\
    objs s' !! 2 = Some item' /\
    published item' = true /\
    rows s' = rows report_session /\
    (published report_new = true -> s' = report_session) /\
    (published_importable report_new -> published_importable item').
Proof.
  apply (deserialize_published_sets report_session 2 report_new true). reflexivity.
Defined.

(** X17.  [deserialize_importable] leaves the item with [importable]
    equal to the value it was given and never flushes.  It returns the
    value only when the flag had it already; after a change it returns the
    [published] flag of the item, which is the one the item had when it was
    made importable, and [False] when it was made non-importable. *)
Theorem deserialize_importable_returns_published
    (s : Session) (i : nat) (item : Item) (val : bool) :
  objs s !! i = Some item ->
  exists ret s' item',
    deserialize_importable i val s = Done ret s' /\
    objs s' !! i = Some item' /\
    importable item' = val /\
    rows s' = rows s /\
    (importable item = val -> ret = val /\ s' = s) /\
    (importable item <> val ->
     ret = published item' /\
     published item' = if val then published item else false).
Proof.
  intros E. unfold deserialize_importable.
  rewrite (bind_done _ _ _ _ _ (get_item_done _ _ _ E)).
  destruct (Bool.eqb (importable item) val) eqn:Heq.
  - apply Bool.eqb_prop in Heq. exists val, s, item.
    split; [reflexivity|]. split; [exact E|]. split; [exact Heq|].
    split; [reflexivity|]. split; [now split | contradiction].
  - apply Bool.eqb_false_iff in Heq.
    destruct (get_unique_slug_done s i item E) as [new_slug Hslug].
    destruct val.
    + pose proof (objs_set_obj s i item (made_importable new_slug item) E) as E1.
      rewrite (bind_done _ _ _ _ _ (make_importable_effect _ _ _ _ false E Hslug)).
      simpl commit. rewrite (bind_done _ _ _ _ _ (get_item_done _ _ _ E1)).
      eexists _, _, _. split; [reflexivity|]. split; [exact E1|].
      split; [reflexivity|]. split; [reflexivity|]. split; [contradiction|].
      intros _. now split.
    + pose proof (objs_set_obj s i item (made_non_importable item) E) as E1.
      rewrite (bind_done _ _ _ _ _ (make_non_importable_effect _ _ _ false E)).
      simpl commit. rewrite (bind_done _ _ _ _ _ (get_item_done _ _ _ E1)).
      eexists _, _, _. split; [reflexivity|]. split; [exact E1|].
      split; [reflexivity|]. split; [reflexivity|]. split; [contradiction|].
      intros _. split; [reflexivity|].
      unfold made_non_importable.
      destruct (published item) eqn:Hpub; simpl; [reflexivity | exact Hpub].
Qed.

Lemma deserialize_importable_returns_published_witness :
  exists s',
    deserialize_importable 2 true report_session = Done false s' /\
    (importable <$> objs s' !! 2) = Some true.
Proof.
  destruct (deserialize_importable_returns_published report_session 2 report_new true eq_refl)
    as (ret & s' & item' & Hrun & Hi & Himp & _ & _ & Hret).
  destruct Hret as [-> Hpub]; [discriminate|].
  exists s'. rewrite Hpub in Hrun. split; [exact Hrun|].
  now rewrite Hi, <- Himp.
Defined.

(** ** The serializer *)

Lemma truthy_Some (o : option string) :
  truthy o = true <-> exists c, o = Some c /\ c <> EmptyString.
Proof.
  split.
  - destruct o as [[|ch c]|]; try discriminate. intros _. now eexists.
  - intros (c & -> & Hne). now destruct c.
Qed.

(** X18.  [serialize_username_and_slug] gives no path exactly when the
    item has no owner, or no slug or an empty one, or the class has no
    abbreviation or an empty one; and two items of one owner that get the
    same path have the same slug. *)
Theorem serialize_username_and_slug_path
    (username : nat -> string) (abbr : option string) (item : Item) :
  (serialize_username_and_slug username abbr item = None <->
   user item = None \/ truthy (slug item) = false \/ truthy abbr = false) /\
  (forall item2 path,
     serialize_username_and_slug username abbr item = Some path ->
     serialize_username_and_slug username abbr item2 = Some path ->
     user item = user item2 ->
     slug item = slug item2).
Proof.
  unfold serialize_username_and_slug. split.
  - destruct (user item) as [n|]; [|now split; [left|]].
    destruct (slug item) as [[|ch c]|], abbr as [[|ch' a]|]; simpl;
      (split; [intros H; try discriminate H; tauto|]);
      intros [H | [H | H]]; try discriminate H; reflexivity.
  - intros item2 path H1 H2 Hu. rewrite <- Hu in H2.
    destruct (user item) as [n|]; [|discriminate H1].
    destruct (slug item) as [c1|], (slug item2) as [c2|], abbr as [a|];
      try discriminate H1; try discriminate H2.
    destruct (truthy (Some c1) && truthy (Some a)); [|discriminate H1].
    destruct (truthy (Some c2) && truthy (Some a)); [|discriminate H2].
    injection H1 as <-. injection H2 as H2. cbn [join] in H2.
    do 5 apply append_cancel_l in H2. congruence.
Qed.

Lemma serialize_username_and_slug_path_witness :
  serialize_username_and_slug (λ _, "ada") (Some "h") punctuation_item = None.
Proof.
  apply (serialize_username_and_slug_path (λ _, "ada") (Some "h") punctuation_item).
  right. left. reflexivity.
Defined.

(** ** Access after a change *)

Lemma is_accessible_shared `{UserManager} (item : Item) (u : User) (a : ShareAssoc) :
  a ∈ users_shared_with item -> assoc_user a = u -> is_anonymous u = false ->
  is_accessible item u = true.
Proof.
  intros Ha Hu Hanon. unfold is_accessible.
  destruct (importable item); [reflexivity|].
  destruct (is_owner item u); [reflexivity|]. rewrite Hanon.
  rewrite bool_decide_eq_true_2; [reflexivity|].
  apply list_elem_of_fmap. exists a. now split.
Qed.



(** X20.  [share_with] gives access: on an item without pending changes,
    after [share_with] for a user that the user manager does not take for
    anonymous, whether the association existed or was created, the item is
    accessible to the user. *)
Theorem share_with_gives_access `{UserManager}
    (s : Session) (i : nat) (item : Item) (n : nat) (flush : bool) :
  objs s !! i = Some item ->
  rows s !! i = Some item ->
  is_anonymous (Some n) = false ->
  exists a s' item',
    share_with i (Some n) flush s = Done a s' /\
    objs s' !! i = Some item' /\
    assoc_user a = Some n /\
    is_accessible item' (Some n) = true.
Proof.
  intros E Er Hanon.
  destruct (get_share_assocs_done s i (Some n)) as [[|a rest] Hq].
  - set (a := mkShareAssoc (next_assoc s) (Some n)).
    assert (Ha : forall item0, a ∈ users_shared_with (with_share a item0)).
    { intros item0. simpl. apply elem_of_app. right. apply list_elem_of_here. }
    assert (E' : objs (next_key s) !! i = Some item) by exact E.
    destruct (slug item) as [[|ch c]|] eqn:Hslug.
    + pose proof (objs_set_obj _ _ _ (with_share a item) E') as Ea.
      destruct (get_unique_slug_done _ i _ Ea) as [new_slug Hnew].
      eexists _, _, _.
      split; [apply (share_with_new_unslugged s i item _ flush new_slug E
                       (or_intror Hslug) Hq Hnew)|].
      split; [apply (objs_set_obj _ _ _ _ E')|]. split; [reflexivity|].
      apply (is_accessible_shared _ _ a); [apply (Ha item) | reflexivity | exact Hanon].
    + eexists _, _, _.
      split; [apply (share_with_new s i item _ (String ch c) flush E Hslug);
              [discriminate | exact Hq]|].
      rewrite objs_commit. split; [apply (objs_set_obj _ _ _ _ E')|].
      split; [reflexivity|].
      apply (is_accessible_shared _ _ a); [apply (Ha item) | reflexivity | exact Hanon].
    + pose proof (objs_set_obj _ _ _ (with_share a item) E') as Ea.
      destruct (get_unique_slug_done _ i _ Ea) as [new_slug Hnew].
      eexists _, _, _.
      split; [apply (share_with_new_unslugged s i item _ flush new_slug E
                       (or_introl Hslug) Hq Hnew)|].
      split; [apply (objs_set_obj _ _ _ _ E')|]. split; [reflexivity|].
      apply (is_accessible_shared _ _ a); [apply (Ha item) | reflexivity | exact Hanon].
  - assert (Hin : a ∈ filter (λ b, assoc_user b = Some n) (users_shared_with item)).
    { rewrite get_share_assocs_of_user in Hq. unfold stored_shares in Hq.
      rewrite Er in Hq. simpl in Hq. injection Hq as ->. apply list_elem_of_here. }
    apply list_elem_of_filter in Hin as [Hu Hin].
    exists a, s, item. split; [apply (share_with_existing _ _ _ _ rest flush Hq)|].
    split; [exact E|]. split; [exact Hu|].
    now apply (is_accessible_shared _ _ a).
Qed.

Lemma share_with_gives_access_witness :
  exists a s' item',
    share_with 0 (Some 3) false shared_session = Done a s' /\
    objs s' !! 0 = Some item' /\
    assoc_user a = Some 3 /\
    @is_accessible example_users item' (Some 3) = true.
Proof.
  apply (@share_with_gives_access example_users shared_session 0 private_item 3 false);
    reflexivity.
Defined.

Lemma marked_deleted_flushed (s : Session) (i : nat) :
  marked_deleted (flushed s) i = [].
Proof.
  unfold marked_deleted, stored_shares, flushed. cbn [objs rows].
  destruct (objs s !! i) as [item|]; [|reflexivity]. simpl.
  apply filter_none. intros a Ha Hfresh. apply Hfresh.
  apply list_elem_of_fmap. now exists a.
Qed.

(** After a flush Python reads the object as the session holds it. *)
Lemma live_item_flushed (s : Session) (i : nat) :
  live_item (flushed s) i = objs s !! i.
Proof.
  unfold live_item, collection. rewrite marked_deleted_flushed.
  change (objs (flushed s)) with (objs s).
  destruct (objs s !! i) as [item|]; [|reflexivity]. simpl.
  rewrite app_nil_r. now destruct item.
Qed.

(** An object whose row is up to date has nothing marked for deletion:
    Python reads it as the session holds it. *)
Lemma live_item_no_pending (s : Session) (i : nat) (item : Item) :
  objs s !! i = Some item -> rows s !! i = Some item -> live_item s i = Some item.
Proof.
  intros E Er. unfold live_item, collection, marked_deleted, stored_shares.
  rewrite E, Er. simpl. rewrite filter_none.
  - rewrite app_nil_r. now destruct item.
  - intros a Ha Hfresh. apply Hfresh. apply list_elem_of_fmap. now exists a.
Qed.

(** An association marked for deletion and not flushed is still in the
    collection Python reads. *)
Lemma marked_deleted_deferred (s : Session) (i : nat) (item : Item) (a : ShareAssoc) :
  objs s !! i = Some item ->
  a ∈ stored_shares s i ->
  a ∈ marked_deleted (set_obj i (without_share a item) s) i.
Proof.
  intros E Ha. unfold marked_deleted.
  rewrite (objs_set_obj _ _ _ _ E). apply list_elem_of_filter. split; [|exact Ha].
  simpl. intros Hin. apply list_elem_of_fmap in Hin as (b & Hid & Hb).
  apply list_elem_of_filter in Hb as [Hne _]. congruence.
Qed.

(** X21.  [unshare_with] takes access away at the flush: on an item
    without pending changes that is not importable and has exactly one
    association for a user whom [is_owner] rejects, the call returns this
    association; after a flushing call the item, as Python reads it, is not
    accessible to the user any more, and after a deferred call it still is
    (unless the user manager takes the user for anonymous). *)
Theorem unshare_with_revokes_access `{UserManager}
    (s : Session) (i : nat) (item : Item) (n : nat) (a : ShareAssoc) (flush : bool) :
  objs s !! i = Some item ->
  rows s !! i = Some item ->
  filter (λ b, assoc_user b = Some n) (users_shared_with item) = [a] ->
  importable item = false ->
  is_owner item (Some n) = false ->
  exists s' item',
    unshare_with i (Some n) flush s = Done a s' /\
    live_item s' i = Some item' /\
    is_accessible item' (Some n)
    = if flush then false else negb (is_anonymous (Some n)).
Proof.
  intros E Er Honly Himp Hown.
  assert (Hq : get_share_assocs i (Some n) s = Done [a] s).
  { rewrite get_share_assocs_of_user. unfold stored_shares. rewrite Er. simpl.
    now rewrite Honly. }
  assert (Ha : a ∈ users_shared_with item /\ assoc_user a = Some n).
  { assert (Hin : a ∈ filter (λ b, assoc_user b = Some n) (users_shared_with item))
      by (rewrite Honly; apply list_elem_of_here).
    apply list_elem_of_filter in Hin. tauto. }
  destruct Ha as [Ha Hu].
  pose proof (objs_set_obj s i item (without_share a item) E) as E1.
  destruct flush.
  - exists (flushed (set_obj i (without_share a item) s)), (without_share a item).
    split; [apply (unshare_with_found _ _ _ _ _ [] true E Hq)|].
    split; [now rewrite live_item_flushed|].
    unfold is_accessible, is_owner in *. simpl. rewrite Himp, Hown.
    destruct (is_anonymous (Some n)); [reflexivity|].
    rewrite bool_decide_eq_false_2; [reflexivity|].
    intros Hin. apply list_elem_of_fmap in Hin as (b & Hb & Hbin).
    apply list_elem_of_filter in Hbin as [Hid Hbin].
    assert (Hba : b ∈ [a]).
    { rewrite <- Honly. apply list_elem_of_filter. now split. }
    apply list_elem_of_In in Hba. simpl in Hba. destruct Hba as [-> | []].
    now apply Hid.
  - eexists _, _. split; [apply (unshare_with_found _ _ _ _ _ [] false E Hq)|].
    simpl commit. unfold live_item. rewrite E1. split; [reflexivity|].
    unfold is_accessible, is_owner in *. simpl. rewrite Himp, Hown.
    destruct (is_anonymous (Some n)); [reflexivity|]. simpl.
    rewrite bool_decide_eq_true_2; [reflexivity|].
    apply list_elem_of_fmap. exists a. split; [now rewrite Hu|].
    unfold collection. apply elem_of_app. right.
    apply (marked_deleted_deferred s i item a E).
    unfold stored_shares. now rewrite Er.
Qed.

Lemma unshare_with_revokes_access_witness :
  (exists s' item',
     unshare_with 0 (Some 2) true shared_session = Done (mkShareAssoc 0 (Some 2)) s' /\
     live_item s' 0 = Some item' /\
     @is_accessible example_users item' (Some 2) = false) /\
  (exists s' item',
     unshare_with 0 (Some 2) false shared_session = Done (mkShareAssoc 0 (Some 2)) s' /\
     live_item s' 0 = Some item' /\
     @is_accessible example_users item' (Some 2) = true).
Proof.
  split.
  - apply (@unshare_with_revokes_access example_users shared_session 0 private_item 2
             (mkShareAssoc 0 (Some 2)) true); reflexivity.
  - apply (@unshare_with_revokes_access example_users shared_session 0 private_item 2
             (mkShareAssoc 0 (Some 2)) false); reflexivity.
Defined.

(** X24.  [unshare_with] for a user [Some n].  When the item has no
    stored association for the user the call raises [IndexError] and leaves
    the session as it is.  Otherwise it returns the first stored association
    for the user: after a flushing call the association is neither in the
    table nor in the collection Python reads, and after a deferred call the
    table is untouched and the collection still holds it. *)
Theorem unshare_with_first_found
    (s : Session) (i : nat) (item : Item) (n : nat) (flush : bool) :
  objs s !! i = Some item ->
  ((forall a, a ∈ stored_shares s i -> assoc_user a <> Some n) ->
   unshare_with i (Some n) flush s = Raise IndexError s) /\
  (forall before a after,
     stored_shares s i = (before ++ a :: after)%list ->
     assoc_user a = Some n ->
     (forall b, b ∈ before -> assoc_user b <> Some n) ->
     exists s',
       unshare_with i (Some n) flush s = Done a s' /\
       (flush = true -> (a ∉ stored_shares s' i) /\ (a ∉ collection s' i)) /\
       (flush = false -> rows s' = rows s /\ a ∈ collection s' i)).
Proof.
  intros E. split.
  - intros Hnone. apply unshare_with_missing. rewrite get_share_assocs_of_user.
    now rewrite (filter_none _ _ Hnone).
  - intros before a after Hstored Ha Hbefore.
    assert (Hq : get_share_assocs i (Some n) s
                 = Done (a :: filter (λ b, assoc_user b = Some n) after) s).
    { rewrite get_share_assocs_of_user, Hstored, filter_app.
      rewrite (filter_none _ _ Hbefore). now rewrite filter_cons_True. }
    pose proof (objs_set_obj s i item (without_share a item) E) as E1.
    exists (commit flush (set_obj i (without_share a item) s)).
    split; [apply (unshare_with_found _ _ _ _ _ _ flush E Hq)|]. split.
    + intros ->. simpl commit.
      assert (Hgone : a ∉ users_shared_with (without_share a item)).
      { simpl. rewrite list_elem_of_filter. tauto. }
      split.
      * unfold stored_shares, flushed. cbn [rows]. now rewrite E1.
      * unfold collection. rewrite marked_deleted_flushed, app_nil_r.
        change (objs (flushed ?x)) with (objs x). now rewrite E1.
    + intros ->. simpl commit. split; [reflexivity|].
      unfold collection. apply elem_of_app. right.
      apply (marked_deleted_deferred s i item a E).
      rewrite Hstored. apply elem_of_app. right. apply list_elem_of_here.
Qed.

Lemma unshare_with_first_found_witness :
  unshare_with 0 (Some 3) false shared_session = Raise IndexError shared_session /\
  (exists s',
     unshare_with 0 (Some 2) true shared_session = Done (mkShareAssoc 0 (Some 2)) s' /\
     mkShareAssoc 0 (Some 2) ∉ collection s' 0) /\
  (exists s',
     unshare_with 0 (Some 2) false shared_session = Done (mkShareAssoc 0 (Some 2)) s' /\
     mkShareAssoc 0 (Some 2) ∈ collection s' 0).
Proof.
  split; [|split].
  - apply (unshare_with_first_found shared_session 0 private_item 3 false eq_refl).
    intros a Ha. apply list_elem_of_In in Ha. simpl in Ha.
    destruct Ha as [<- | []]. discriminate.
  - destruct (unshare_with_first_found shared_session 0 private_item 2 true eq_refl)
      as (_ & Hfound).
    destruct (Hfound [] (mkShareAssoc 0 (Some 2)) [] eq_refl eq_refl)
      as (s' & Hrun & Htrue & _).
    + intros b Hb. now apply elem_of_nil in Hb.
    + exists s'. split; [exact Hrun|]. now apply Htrue.
  - destruct (unshare_with_first_found shared_session 0 private_item 2 false eq_refl)
      as (_ & Hfound).
    destruct (Hfound [] (mkShareAssoc 0 (Some 2)) [] eq_refl eq_refl)
      as (s' & Hrun & _ & Hfalse).
    + intros b Hb. now apply elem_of_nil in Hb.
    + exists s'. split; [exact Hrun|]. now apply Hfalse.
Defined.

(** ** What a valid slug is *)

(** X22.  [is_valid_slug] accepts a string exactly when it is a non-empty
    word over lowercase letters, digits and hyphens, or such a word
    followed by one newline; so it rejects the empty string, and every
    string with an uppercase letter, a space or any other character in
    front of its last position. *)
Theorem is_valid_slug_accepts (slug : string) :
  is_valid_slug slug = true <->
  exists w, w <> EmptyString /\ PyStr.all_chars PyStr.slug_char w = true /\
            (slug = w \/ slug = (w ++ String PyStr.LF EmptyString)%string).
Proof. apply is_valid_slug_spec. Qed.

(** ** Sharing with a list of users *)

(** X23.  [share_with] on a list of users, for an item that has a
    non-empty slug, never raises and never flushes: it returns one
    association for each user of the list, and the table, the slug of the
    item and the other objects are the ones before the call. *)
Theorem share_with_list_deferred (i : nat) (c : string) (us : list User) :
  c <> EmptyString ->
  forall (s : Session) (item : Item),
    objs s !! i = Some item ->
    slug item = Some c ->
    exists found s',
      share_with_list i us s = Done found s' /\
      length found = length us /\
      rows s' = rows s /\
      slug_of s' i = Some (Some c) /\
      (forall j, j <> i -> objs s' !! j = objs s !! j).
Proof.
  intros Hne. unfold share_with_list.
  induction us as [|u us IH]; intros s item E Hc.
  - exists [], s. repeat split. unfold slug_of. now rewrite E, <- Hc.
  - simpl map_users.
    destruct (get_share_assocs_done s i u) as [[|a rest] Hq].
    + pose proof (share_with_new s i item u c false E Hc Hne Hq) as Hrun.
      simpl commit in Hrun.
      set (a := mkShareAssoc (next_assoc s) u) in *.
      pose proof (objs_set_obj (next_key s) i item (with_share a item) E) as E1.
      destruct (IH _ (with_share a item) E1 Hc)
        as (found & s' & Hrest & Hlen & Hrows & Hslug & Hobjs).
      exists (a :: found), s'.
      rewrite (bind_done _ _ _ _ _ Hrun), (bind_done _ _ _ _ _ Hrest).
      split; [reflexivity|]. split; [simpl; now rewrite Hlen|].
      split; [exact Hrows|]. split; [exact Hslug|].
      intros j Hj. rewrite (Hobjs j Hj). simpl. now apply list_lookup_insert_ne.
    + pose proof (share_with_existing s i u a rest false Hq) as Hrun.
      destruct (IH _ _ E Hc) as (found & s' & Hrest & Hlen & Hrows & Hslug & Hobjs).
      exists (a :: found), s'.
      rewrite (bind_done _ _ _ _ _ Hrun), (bind_done _ _ _ _ _ Hrest).
      split; [reflexivity|]. split; [simpl; now rewrite Hlen|].
      now repeat split.
Qed.

Lemma share_with_list_deferred_witness :
  exists found s',
    share_with_list 0 [Some 2; Some 3] one_item_session = Done found s' /\
    length found = 2 /\
    rows s' = rows one_item_session /\
    slug_of s' 0 = Some (Some "report") /\
    (forall j, j <> 0 -> objs s' !! j = objs one_item_session !! j).
Proof.
  apply (share_with_list_deferred 0 "report" [Some 2; Some 3] ltac:(discriminate)
           one_item_session titled_report); reflexivity.
Defined.
